(** * Story AI: the narrative orchestration core

    A shallow embedding of [services/geminiService.ts], [components/ChatBot.tsx]
    and [App.tsx], and the properties of the binary codec, the PCM decoder,
    the request builders, the response handling and the UI state handlers.

    Conventions of the embedding.
    - A JavaScript string is the list of its UTF-16 code units ([jsstring]);
      [js "..."] is the string of an ASCII literal.
    - A [Uint8Array] is a [list byte].
    - A JavaScript exception is a value of [exn]; a function that may throw
      returns a [result]. *)

From Stdlib Require Import ZArith NArith QArith Qround Qcanon Ascii String Lia.
From Stdlib.Strings Require Import Byte.
From stdpp Require Import base option list strings gmap.

Set Default Proof Using "Type".

(** ** Strings *)

Definition jsstring : Type := list Z.

Definition js (s : string) : jsstring :=
  map (fun c => Z.of_N (N_of_ascii c)) (list_ascii_of_string s).

(** A string is falsy exactly when it is empty. *)
Definition truthy (s : jsstring) : bool :=
  match s with
  | [] => false
  | _ :: _ => true
  end.

(** ** Exceptions and results *)

Inductive exn : Type :=
  | RangeError            (* typed-array construction *)
  | InvalidCharacterError (* atob / btoa *)
  | NotSupportedError     (* AudioContext.createBuffer *)
  | SyntaxError           (* JSON.parse *)
  | ServiceError          (* a rejected generateContent call *)
  | NoAudioData.          (* narrateText: "No audio data received" *)

Inductive result (A : Type) : Type :=
  | Ok (a : A)
  | Throw (e : exn).
Arguments Ok {A} a.
Arguments Throw {A} e.

(** Sequencing: a thrown exception skips the rest.  With these instances
    [x ← r; k] is "run [r], bind its value to [x], go on with [k]". *)
#[global] Instance result_ret : MRet result := fun A a => Ok a.
#[global] Instance result_bind : MBind result := fun A B k r =>
  match r with
  | Ok a => k a
  | Throw e => Throw e
  end.

(** [try { body } catch (e) { handler }] *)
Definition try_catch {A} (body : result A) (handler : exn -> A) : A :=
  match body with
  | Ok a => a
  | Throw e => handler e
  end.

Definition returns {A} (r : result A) : Prop := exists a, r = Ok a.

(** ** The binary codec: [encode], [decode] and the platform's base64 *)

Module Codec.

Local Open Scope Z_scope.

(** *** btoa and atob (WHATWG forgiving-base64, RFC 4648 alphabet) *)

Definition alphabet : jsstring :=
  js "ABCDEFGHIJKLMNOPQRSTUVWXYZabcdefghijklmnopqrstuvwxyz0123456789+/".

(** The code unit of [=]. *)
Definition pad : Z := 61.

Definition sextet_char (n : Z) : Z := nth (Z.to_nat n) alphabet pad.

Definition char_sextet (k : Z) : option Z :=
  if (65 <=? k) && (k <=? 90) then Some (k - 65)
  else if (97 <=? k) && (k <=? 122) then Some (k - 71)
  else if (48 <=? k) && (k <=? 57) then Some (k + 4)
  else if k =? 43 then Some 62
  else if k =? 47 then Some 63
  else None.

(** Three bytes make 24 bits, read as four groups of six. *)
Definition group3 (a b c : Z) : list Z :=
  let n := a * 65536 + b * 256 + c in
  [n / 262144; (n / 4096) mod 64; (n / 64) mod 64; n mod 64].

(** Two bytes are followed by two zero bits: three groups. *)
Definition group2 (a b : Z) : list Z :=
  let n := (a * 256 + b) * 4 in
  [n / 4096; (n / 64) mod 64; n mod 64].

(** One byte is followed by four zero bits: two groups. *)
Definition group1 (a : Z) : list Z :=
  let n := a * 16 in
  [n / 64; n mod 64].

Fixpoint base64_encode (l : list Z) : jsstring :=
  match l with
  | [] => []
  | [a] => map sextet_char (group1 a) ++ [pad; pad]
  | [a; b] => map sextet_char (group2 a b) ++ [pad]
  | a :: b :: c :: r => map sextet_char (group3 a b c) ++ base64_encode r
  end.

(** [btoa(data)]: InvalidCharacterError when a code unit is above 255,
    else the base64 text of the code units taken as bytes. *)
Definition btoa (data : jsstring) : result jsstring :=
  if forallb (fun u => u <=? 255) data then Ok (base64_encode data)
  else Throw InvalidCharacterError.

(** TAB, LF, FF, CR and SPACE. *)
Definition is_ascii_whitespace (k : Z) : bool :=
  (k =? 9) || (k =? 10) || (k =? 12) || (k =? 13) || (k =? 32).

(** Step 2 of forgiving-base64 decode: when the length is a multiple of
    four, one or two trailing [=] are removed. *)
Definition strip_padding (d : jsstring) : jsstring :=
  if (Z.of_nat (length d) mod 4 =? 0) then
    match rev d with
    | p :: q :: r =>
        if p =? pad then
          if q =? pad then rev r else rev (q :: r)
        else d
    | [p] => if p =? pad then [] else d
    | [] => d
    end
  else d.

Fixpoint sextets_of (d : jsstring) : option (list Z) :=
  match d with
  | [] => Some []
  | c :: r =>
      match char_sextet c, sextets_of r with
      | Some n, Some ns => Some (n :: ns)
      | _, _ => None
      end
  end.

Definition ungroup4 (s1 s2 s3 s4 : Z) : list Z :=
  let n := s1 * 262144 + s2 * 4096 + s3 * 64 + s4 in
  [n / 65536; (n / 256) mod 256; n mod 256].

(** 18 bits: the last two are discarded. *)
Definition ungroup3 (s1 s2 s3 : Z) : list Z :=
  let n := (s1 * 4096 + s2 * 64 + s3) / 4 in
  [n / 256; n mod 256].

(** 12 bits: the last four are discarded. *)
Definition ungroup2 (s1 s2 : Z) : list Z :=
  [(s1 * 64 + s2) / 16].

Fixpoint bytes_of_sextets (ns : list Z) : list Z :=
  match ns with
  | s1 :: s2 :: s3 :: s4 :: r => ungroup4 s1 s2 s3 s4 ++ bytes_of_sextets r
  | [s1; s2; s3] => ungroup3 s1 s2 s3
  | [s1; s2] => ungroup2 s1 s2
  | _ => []
  end.

(** [atob(data)]: forgiving-base64 decode; the bytes come back as the code
    units of a string. *)
Definition atob (data : jsstring) : result jsstring :=
  let d := List.filter (fun c => negb (is_ascii_whitespace c)) data in
  let d := strip_padding d in
  if (Z.of_nat (length d) mod 4 =? 1) then Throw InvalidCharacterError
  else
    match sextets_of d with
    | None => Throw InvalidCharacterError
    | Some ns => Ok (bytes_of_sextets ns)
    end.

(** *** encode and decode of geminiService.ts *)

Definition Uint8Array : Type := list byte.

Definition byte_val (b : byte) : Z := Z.of_N (Byte.to_N b).

(** [String.fromCharCode(v)]: the code unit [v mod 2^16]; [bytes[i]] out of
    range is [undefined] ([None]), which gives the code unit 0. *)
Definition fromCharCode (v : option Z) : jsstring :=
  match v with
  | Some n => [n mod 65536]
  | None => [0]
  end.

(** [s.charCodeAt(i)] is NaN ([None]) out of range. *)
Definition charCodeAt (s : jsstring) (i : nat) : option Z := s !! i.

(** Storing a number in a [Uint8Array] element: NaN becomes 0, an integer is
    taken modulo 256. *)
Definition to_uint8 (v : option Z) : byte :=
  match v with
  | Some n => default x00 (Byte.of_N (Z.to_N (n mod 256)))
  | None => x00
  end.

Definition encode (bytes : Uint8Array) : result jsstring :=
  let len := length bytes in
  let binary :=
    fold_left (fun binary i => binary ++ fromCharCode (byte_val <$> bytes !! i))
              (seq 0 len) [] in
  btoa binary.

Definition decode (base64 : jsstring) : result Uint8Array :=
  binaryString ← atob base64;
  let len := length binaryString in
  let bytes := replicate len x00 in
  Ok (fold_left (fun bytes i => <[i := to_uint8 (charCodeAt binaryString i)]> bytes)
                (seq 0 len) bytes).

(** *** Notions used to state the facts about the codec *)

Definition sextet (n : Z) : Prop := 0 <= n < 64.
Definition octet (n : Z) : Prop := 0 <= n < 256.

Definition sextets_lt64 : list Z := map Z.of_nat (seq 0 64).

Definition alphabet_ok (n : Z) : bool :=
  match char_sextet (sextet_char n) with
  | Some m => (m =? n) && negb (sextet_char n =? pad)
              && negb (is_ascii_whitespace (sextet_char n))
  | None => false
  end.

(** The sextets and the padding that [base64_encode] writes. *)
Fixpoint sextets (l : list Z) : list Z :=
  match l with
  | [] => []
  | [a] => group1 a
  | [a; b] => group2 a b
  | a :: b :: c :: r => group3 a b c ++ sextets r
  end.

Fixpoint padding (l : list Z) : jsstring :=
  match l with
  | [] => []
  | [_] => [pad; pad]
  | [_; _] => [pad]
  | _ :: _ :: _ :: r => padding r
  end.

End Codec.

(** ** The PCM decoder: [decodeAudioData] *)

Module PCM.

Local Open Scope Z_scope.

(** *** JavaScript numbers

    The decoder divides non-negative integers: the quotient is a rational, or
    [Infinity] or [NaN] when the divisor is 0.  Finite values are exact
    rationals.  That agrees with binary64 where the code looks: an index [i]
    is below the rounded quotient of two integers under 2^53 exactly when it
    is below the exact one, and so for the integer part; a 16-bit integer
    divided by 32768 is a binary32 value, so storing it in a [Float32Array]
    keeps it. *)
Inductive number : Type :=
  | Fin (q : Q)
  | Infinity
  | NaN.

(** [n / c] for two non-negative integers. *)
Definition div_nat (n c : nat) : number :=
  match c, n with
  | O, O => NaN
  | O, S _ => Infinity
  | S _, _ => Fin (inject_Z (Z.of_nat n) / inject_Z (Z.of_nat c))%Q
  end.

(** [i < bound] for an integer [i]. *)
Definition lt_number (i : nat) (bound : number) : bool :=
  match bound with
  | Fin q => match (inject_Z (Z.of_nat i) ?= q)%Q with Lt => true | _ => false end
  | Infinity => true
  | NaN => false
  end.

(** How often [for (let i = 0; i < bound; i++)] runs its body: once for
    every integer [i >= 0] with [lt_number i bound].  Under [Infinity] the
    loop has no last round; [decodeAudioData] enters its loops only with a
    finite bound (lemma [frameCount_finite] below), so the value chosen
    here for [Infinity] is never used. *)
Definition iterations (bound : number) : nat :=
  match bound with
  | Fin q => Z.to_nat (Qceiling q)
  | Infinity => O
  | NaN => O
  end.

(** Web IDL conversion of a number to [unsigned long]: not finite gives 0,
    otherwise the integer part modulo 2^32. *)
Definition to_unsigned_long (x : number) : Z :=
  match x with
  | Fin q =>
      (match (q ?= 0)%Q with Lt => Qceiling q | _ => Qfloor q end) mod 2 ^ 32
  | Infinity => 0
  | NaN => 0
  end.

(** *** Typed arrays *)

(** A 16-bit two's-complement value from its low and high byte. *)
Definition int16_of_bytes (lo hi : byte) : Z :=
  let u := Codec.byte_val lo + 256 * Codec.byte_val hi in
  if u <? 32768 then u else u - 65536.

(** The elements seen through [new Int16Array(buffer)] on a little-endian
    platform. *)
Fixpoint int16_view (buffer : list byte) : list Z :=
  match buffer with
  | lo :: hi :: r => int16_of_bytes lo hi :: int16_view r
  | _ => []
  end.

(** [new Int16Array(buffer)]: RangeError when the byte length of the buffer
    is not a multiple of the element size.  The argument stands for
    [data.buffer]; [data] comes from [decode], whose array spans its
    buffer. *)
Definition new_Int16Array (buffer : list byte) : result (list Z) :=
  if Nat.even (length buffer) then Ok (int16_view buffer)
  else Throw RangeError.

(** [dataInt16[k] / 32768.0]; an element out of range is [undefined], and
    [undefined / 32768.0] is [NaN]. *)
Definition div_32768 (v : option Z) : number :=
  match v with
  | Some z => Fin (inject_Z z / 32768)%Q
  | None => NaN
  end.

(** *** The audio context and its buffers *)

(** The limits of an implementation.  The Web Audio API asks for at least
    32 channels and the rates from 8000 to 96000. *)
Record AudioContext : Type := {
  maxNumberOfChannels : Z;
  minSampleRate : Q;
  maxSampleRate : Q
}.

Record AudioBuffer : Type := {
  sampleRate : Q;
  length : nat;
  channels : list (list number)
}.

Definition numberOfChannels (b : AudioBuffer) : nat := List.length (channels b).

Definition Qleb (x y : Q) : bool :=
  match (x ?= y)%Q with Gt => false | _ => true end.

(** [ctx.createBuffer(numberOfChannels, length, sampleRate)]:
    NotSupportedError when a count is zero or a value is outside its limits;
    otherwise a buffer of silent channels. *)
Definition createBuffer (ctx : AudioContext)
    (numberOfChannels : nat) (length : number) (sampleRate : Q)
    : result AudioBuffer :=
  let nc := to_unsigned_long (Fin (inject_Z (Z.of_nat numberOfChannels))) in
  let len := to_unsigned_long length in
  if (nc =? 0) || (maxNumberOfChannels ctx <? nc) || (len =? 0)
     || negb (Qleb (minSampleRate ctx) sampleRate)
     || negb (Qleb sampleRate (maxSampleRate ctx))
  then Throw NotSupportedError
  else Ok {| sampleRate := sampleRate;
             length := Z.to_nat len;
             channels := replicate (Z.to_nat nc)
                                   (replicate (Z.to_nat len) (Fin 0%Q)) |}.

(** [buffer.getChannelData(channel)[i] = v]: the channel data is the
    buffer's own storage, and a write outside the array is ignored. *)
Definition set_sample (channel i : nat) (v : number) (b : AudioBuffer)
    : AudioBuffer :=
  {| sampleRate := sampleRate b;
     length := length b;
     channels := alter (fun channelData => <[i := v]> channelData)
                       channel (channels b) |}.

Definition sample (b : AudioBuffer) (channel i : nat) : option number :=
  channels b !! channel ≫= fun channelData => channelData !! i.

(** *** decodeAudioData *)

Definition decodeAudioData (data : list byte) (ctx : AudioContext)
    (sampleRate : Q) (numChannels : nat) : result AudioBuffer :=
  dataInt16 ← new_Int16Array data;
  let frameCount := div_nat (List.length dataInt16) numChannels in
  buffer ← createBuffer ctx numChannels frameCount sampleRate;
  Ok (fold_left
        (fun buffer channel =>
           fold_left
             (fun buffer i =>
                set_sample channel i
                  (div_32768 (dataInt16 !! (i * numChannels + channel)%nat))
                  buffer)
             (seq 0 (iterations frameCount)) buffer)
        (seq 0 numChannels) buffer).

(** *** Notions used to state the facts about the decoder *)

(** The number of 16-bit samples in a buffer. *)
Definition total_samples (data : list byte) : nat := (List.length data / 2)%nat.

(** The [k]-th 16-bit little-endian signed sample of a byte buffer, as the
    format defines it: the bytes at [2k] and [2k + 1], the low one first,
    make an unsigned number below 65536, and that number is taken modulo
    65536 into the range from -32768 to 32767. *)
Definition int16At (data : list byte) (k : nat) : option Z :=
  match data !! (2 * k)%nat, data !! (2 * k + 1)%nat with
  | Some lo, Some hi =>
      Some ((Codec.byte_val lo + 256 * Codec.byte_val hi + 32768) mod 65536
            - 32768)
  | _, _ => None
  end.

(** The context takes [numChannels] channels of [frames] frames at
    [sampleRate]. *)
Definition accepts (ctx : AudioContext) (numChannels frames : nat)
    (sampleRate : Q) : Prop :=
  (1 <= numChannels)%nat /\ Z.of_nat numChannels <= maxNumberOfChannels ctx
  /\ Z.of_nat numChannels < 2 ^ 32
  /\ (1 <= frames)%nat /\ Z.of_nat frames < 2 ^ 32
  /\ (minSampleRate ctx <= sampleRate)%Q /\ (sampleRate <= maxSampleRate ctx)%Q.

(** The buffer of [frames] frames per channel whose channel [c] holds the
    samples [c], [c + numChannels], [c + 2 * numChannels], ... of the
    16-bit view of [data], each divided by 32768. *)
Definition deinterleaved (data : list byte) (sampleRate : Q)
    (numChannels frames : nat) : AudioBuffer :=
  {| sampleRate := sampleRate;
     length := frames;
     channels :=
       map (fun c =>
              map (fun i => div_32768 (int16_view data !! (i * numChannels + c)%nat))
                  (seq 0 frames))
           (seq 0 numChannels) |}.

(** A context with the least limits the Web Audio API allows. *)
Definition base_context : AudioContext :=
  {| maxNumberOfChannels := 32;
     minSampleRate := 8000%Q;
     maxSampleRate := 96000%Q |}.

End PCM.

(** ** JSON values and [JSON.parse] *)

Module Json.

Local Open Scope Z_scope.

(** A Number that [JSON.parse] can give: a binary64 value that is finite,
    kept as the rational it equals, in lowest terms; or negative zero; or
    an infinity. *)
Inductive double : Type :=
  | Num (q : Q)
  | MinusZero
  | Infinite (negative : bool).

(** A parsed value.  An object is a finite map from keys to values. *)
#[local] Unset Elimination Schemes.
Inductive json : Type :=
  | JNull
  | JBool (b : bool)
  | JNumber (x : double)
  | JString (s : jsstring)
  | JArray (elements : list json)
  | JObject (fields : gmap jsstring json).
#[local] Set Elimination Schemes.

Inductive token : Type :=
  | TLBrace | TRBrace | TLBracket | TRBracket | TColon | TComma
  | TString (s : jsstring)
  | TNumber (x : double)
  | TTrue | TFalse | TNull.

(** *** Tokens *)

(** SPACE, TAB, LF and CR. *)
Definition is_ws (c : Z) : bool :=
  (c =? 32) || (c =? 9) || (c =? 10) || (c =? 13).

Definition is_digit (c : Z) : bool := (48 <=? c) && (c <=? 57).

Definition is_lower (c : Z) : bool := (97 <=? c) && (c <=? 122).

(** The characters a number is written with: digits, [-], [+], [.], [e], [E]. *)
Definition is_number_char (c : Z) : bool :=
  is_digit c || (c =? 45) || (c =? 43) || (c =? 46) || (c =? 101) || (c =? 69).

Definition punctuation (c : Z) : option token :=
  if c =? 123 then Some TLBrace
  else if c =? 125 then Some TRBrace
  else if c =? 91 then Some TLBracket
  else if c =? 93 then Some TRBracket
  else if c =? 58 then Some TColon
  else if c =? 44 then Some TComma
  else None.

Definition hex_digit (c : Z) : option Z :=
  if is_digit c then Some (c - 48)
  else if (97 <=? c) && (c <=? 102) then Some (c - 87)
  else if (65 <=? c) && (c <=? 70) then Some (c - 55)
  else None.

(** The character after a backslash, other than [u]. *)
Definition simple_escape (c : Z) : option Z :=
  if c =? 34 then Some 34
  else if c =? 92 then Some 92
  else if c =? 47 then Some 47
  else if c =? 98 then Some 8
  else if c =? 102 then Some 12
  else if c =? 110 then Some 10
  else if c =? 114 then Some 13
  else if c =? 116 then Some 9
  else None.

(** The text between the quotes of a string, escapes resolved. *)
Fixpoint unescape (raw : jsstring) : option jsstring :=
  match raw with
  | [] => Some []
  | c :: r =>
      if c =? 92 then
        match r with
        | [] => None
        | e :: r' =>
            if e =? 117 then
              match r' with
              | h1 :: h2 :: h3 :: h4 :: r'' =>
                  d1 ← hex_digit h1; d2 ← hex_digit h2;
                  d3 ← hex_digit h3; d4 ← hex_digit h4;
                  rest ← unescape r'';
                  Some ((d1 * 4096 + d2 * 256 + d3 * 16 + d4) :: rest)
              | _ => None
              end
            else
              u ← simple_escape e; rest ← unescape r'; Some (u :: rest)
        end
      else rest ← unescape r; Some (c :: rest)
  end.

Fixpoint span_digits (s : jsstring) : list Z * jsstring :=
  match s with
  | c :: r =>
      if is_digit c then
        let '(ds, rest) := span_digits r in ((c - 48) :: ds, rest)
      else ([], s)
  | [] => ([], [])
  end.

Definition digits_value (ds : list Z) : Z :=
  fold_left (fun n d => 10 * n + d) ds 0.

(** [n / d] rounded to the nearest integer, a tie to the even one, for
    [0 <= n] and [0 < d]. *)
Definition round_half_even (n d : Z) : Z :=
  let q := n / d in
  match 2 * (n mod d) ?= d with
  | Lt => q
  | Gt => q + 1
  | Eq => if Z.even q then q else q + 1
  end.

(** The integer [e] with [2 ^ e <= n / d < 2 ^ (e + 1)], for [0 < n] and
    [0 < d]. *)
Definition log2_ratio (n d : Z) : Z :=
  let e := Z.log2 n - Z.log2 d in
  if (if 0 <=? e then d * 2 ^ e <=? n else d <=? n * 2 ^ (- e))
  then e else e - 1.

(** The Number value for the mathematical value [n / d], negated when
    [negative]: the nearest binary64 value, a tie going to the even
    significand.  The significand has 53 bits, the least unit is 2^-1074,
    and what rounds to 2^1024 or beyond is an infinity. *)
Definition to_double (negative : bool) (n d : Z) : double :=
  if n =? 0 then (if negative then MinusZero else Num 0)
  else
    let p := Z.max (log2_ratio n d - 52) (-1074) in
    let m :=
      if 0 <=? p then round_half_even n (d * 2 ^ p)
      else round_half_even (n * 2 ^ (- p)) d in
    if m =? 0 then (if negative then MinusZero else Num 0)
    else if (0 <=? p) && (2 ^ 1024 <=? m * 2 ^ p) then Infinite negative
    else
      let v :=
        if 0 <=? p then inject_Z (m * 2 ^ p)
        else Qred (Qmake m (Z.to_pos (2 ^ (- p)))) in
      Num (if negative then (- v)%Q else v).

(** The value of a number: an optional minus sign; then either 0 or a digit
    from 1 to 9 with any digits after it; then optionally a point and one
    digit or more; then optionally e or E, an optional sign and one digit or
    more.  Nothing when the text is not of that form. *)
Definition number_value (s : jsstring) : option double :=
  let '(negative, s1) :=
    match s with
    | c :: r => if c =? 45 then (true, r) else (false, s)
    | [] => (false, s)
    end in
  let '(int_part, s2) := span_digits s1 in
  match int_part with
  | [] => None
  | d :: ds =>
      if (d =? 0) && negb (Nat.eqb (length ds) 0) then None
      else
        frac ←
          match s2 with
          | c :: r =>
              if c =? 46 then
                let '(fs, r') := span_digits r in
                match fs with [] => None | _ => Some (fs, r') end
              else Some ([], s2)
          | [] => Some ([], s2)
          end;
        let '(frac_part, s3) := frac in
        expo ←
          match s3 with
          | c :: r =>
              if (c =? 101) || (c =? 69) then
                let '(minus, r1) :=
                  match r with
                  | g :: r' =>
                      if g =? 45 then (true, r')
                      else if g =? 43 then (false, r')
                      else (false, r)
                  | [] => (false, r)
                  end in
                let '(es, r2) := span_digits r1 in
                match es with
                | [] => None
                | _ => Some ((if minus then - digits_value es
                              else digits_value es), r2)
                end
              else Some (0, s3)
          | [] => Some (0, s3)
          end;
        let '(e, s4) := expo in
        match s4 with
        | _ :: _ => None
        | [] =>
            let digits := digits_value (int_part ++ frac_part) in
            let scale := e - Z.of_nat (length frac_part) in
            Some (if 0 <=? scale
                  then to_double negative (digits * 10 ^ scale) 1
                  else to_double negative digits (10 ^ (- scale)))
        end
  end.

Definition number_token (lexeme : jsstring) : option token :=
  TNumber <$> number_value lexeme.

Definition word_token (w : jsstring) : option token :=
  if decide (w = js "true") then Some TTrue
  else if decide (w = js "false") then Some TFalse
  else if decide (w = js "null") then Some TNull
  else None.

(** Where the tokenizer is: between tokens, inside a string (after a
    backslash or not), inside a number, inside a word. *)
Inductive mode : Type :=
  | Between
  | InString (raw : jsstring) (escaped : bool)
  | InNumber (lexeme : jsstring)
  | InWord (w : jsstring).

(** A character met between tokens. *)
Definition between (c : Z) : option (mode * list token) :=
  if is_ws c then Some (Between, [])
  else match punctuation c with
       | Some t => Some (Between, [t])
       | None =>
           if c =? 34 then Some (InString [] false, [])
           else if is_digit c || (c =? 45) then Some (InNumber [c], [])
           else if is_lower c then Some (InWord [c], [])
           else None
       end.

Fixpoint tokens (m : mode) (s : jsstring) : option (list token) :=
  match s with
  | [] =>
      match m with
      | Between => Some []
      | InString _ _ => None
      | InNumber n => t ← number_token n; Some [t]
      | InWord w => t ← word_token w; Some [t]
      end
  | c :: r =>
      match m with
      | Between =>
          '(m', ts) ← between c; rest ← tokens m' r; Some (ts ++ rest)
      | InString raw true => tokens (InString (raw ++ [92; c]) false) r
      | InString raw false =>
          if c =? 34 then
            str ← unescape raw; rest ← tokens Between r;
            Some (TString str :: rest)
          else if c =? 92 then tokens (InString raw true) r
          else if c <? 32 then None
          else tokens (InString (raw ++ [c]) false) r
      | InNumber n =>
          if is_number_char c then tokens (InNumber (n ++ [c])) r
          else
            t ← number_token n; '(m', ts) ← between c; rest ← tokens m' r;
            Some (t :: ts ++ rest)
      | InWord w =>
          if is_lower c then tokens (InWord (w ++ [c])) r
          else
            t ← word_token w; '(m', ts) ← between c; rest ← tokens m' r;
            Some (t :: ts ++ rest)
      end
  end.

(** *** Values *)

(** An array or object still open, with what it holds so far; an object
    may have read a key whose value is to come. *)
Inductive frame : Type :=
  | FArray (elements : list json)
  | FObject (fields : gmap jsstring json) (key : option jsstring).

Inductive phase : Type :=
  | PValue          (* a value must follow *)
  | PValueOrClose   (* just after "[" *)
  | PKey            (* a key must follow *)
  | PKeyOrClose     (* just after "{" *)
  | PColon
  | PAfter          (* after a value inside an array or object *)
  | PDone (v : json).

(** A value is complete: it is the result, or goes into the innermost open
    array or object.  A key met twice keeps its last value. *)
Definition complete (v : json) (stack : list frame)
    : option (list frame * phase) :=
  match stack with
  | [] => Some ([], PDone v)
  | FArray elements :: rest => Some (FArray (elements ++ [v]) :: rest, PAfter)
  | FObject fields (Some k) :: rest =>
      Some (FObject (<[k := v]> fields) None :: rest, PAfter)
  | FObject _ None :: _ => None
  end.

Definition value_token (t : token) (stack : list frame)
    : option (list frame * phase) :=
  match t with
  | TString s => complete (JString s) stack
  | TNumber q => complete (JNumber q) stack
  | TTrue => complete (JBool true) stack
  | TFalse => complete (JBool false) stack
  | TNull => complete JNull stack
  | TLBracket => Some (FArray [] :: stack, PValueOrClose)
  | TLBrace => Some (FObject ∅ None :: stack, PKeyOrClose)
  | _ => None
  end.

Definition key_token (t : token) (stack : list frame)
    : option (list frame * phase) :=
  match t, stack with
  | TString k, FObject fields _ :: rest =>
      Some (FObject fields (Some k) :: rest, PColon)
  | _, _ => None
  end.

Definition step (t : token) (st : list frame * phase)
    : option (list frame * phase) :=
  let '(stack, ph) := st in
  match ph with
  | PValue => value_token t stack
  | PValueOrClose =>
      match t, stack with
      | TRBracket, FArray elements :: rest => complete (JArray elements) rest
      | _, _ => value_token t stack
      end
  | PKey => key_token t stack
  | PKeyOrClose =>
      match t, stack with
      | TRBrace, FObject fields _ :: rest => complete (JObject fields) rest
      | _, _ => key_token t stack
      end
  | PColon => match t with TColon => Some (stack, PValue) | _ => None end
  | PAfter =>
      match t, stack with
      | TComma, FArray _ :: _ => Some (stack, PValue)
      | TRBracket, FArray elements :: rest => complete (JArray elements) rest
      | TComma, FObject _ _ :: _ => Some (stack, PKey)
      | TRBrace, FObject fields _ :: rest => complete (JObject fields) rest
      | _, _ => None
      end
  | PDone _ => None
  end.

Fixpoint run (ts : list token) (st : list frame * phase) : option json :=
  match ts with
  | [] => match st with (_, PDone v) => Some v | _ => None end
  | t :: r => st' ← step t st; run r st'
  end.

(** [JSON.parse(text)]: the value, or SyntaxError. *)
Definition parse (text : jsstring) : result json :=
  match tokens Between text ≫= fun ts => run ts ([], PValue) with
  | Some v => Ok v
  | None => Throw SyntaxError
  end.

(** *** Notions used to state the facts about the parser *)

(** A character that stands for itself between the quotes of a string. *)
Definition plain (c : Z) : Prop := 32 <= c /\ c <> 34 /\ c <> 92.

(** A string without escapes, as it is written in a JSON text. *)
Definition print_string (s : jsstring) : jsstring := [34] ++ s ++ [34].

End Json.

(** ** The request builders of geminiService.ts *)

Module Gemini.

Local Open Scope Z_scope.

(** *** Strings *)

Definition nl : jsstring := [10].
Definition dquote : jsstring := [34].
Definition comma : Z := 44.

(** [s.split(sep)] for a separator of one code unit: the pieces between
    the separators, at least one piece. *)
Fixpoint split (sep : Z) (s : jsstring) : list jsstring :=
  match s with
  | [] => [[]]
  | c :: r =>
      if c =? sep then [] :: split sep r
      else match split sep r with
           | piece :: pieces => (c :: piece) :: pieces
           | [] => [[c]]
           end
  end.

Fixpoint startsWith (s prefix : jsstring) : bool :=
  match prefix, s with
  | [], _ => true
  | p :: prefix', c :: s' => (c =? p) && startsWith s' prefix'
  | _ :: _, [] => false
  end.

(** [text || fallback] for a string that may be undefined. *)
Definition or_else (text : option jsstring) (fallback : jsstring) : jsstring :=
  match text with
  | Some (c :: r) => c :: r
  | _ => fallback
  end.

(** [a && b] as a condition, for two strings that may be null. *)
Definition both_present (a b : option jsstring) : option (jsstring * jsstring) :=
  match a, b with
  | Some x, Some y => if truthy x && truthy y then Some (x, y) else None
  | _, _ => None
  end.

(** *** Requests and responses *)

Inductive Part : Type :=
  | TextPart (text : jsstring)
  | InlineData (mimeType : jsstring) (data : option jsstring).

Record Content : Type := {
  role : option jsstring;
  parts : list Part
}.

Inductive Contents : Type :=
  | OneContent (c : Content)
  | ManyContents (cs : list Content).

#[local] Unset Elimination Schemes.
Inductive Schema : Type :=
  | SArray (items : Schema)
  | SObject (properties : list (jsstring * Schema)) (required : list jsstring)
  | SString (description : option jsstring).
#[local] Set Elimination Schemes.

Record Config : Type := {
  temperature : option Q;
  responseMimeType : option jsstring;
  responseSchema : option Schema;
  systemInstruction : option jsstring;
  responseModalities : list jsstring;
  voiceName : option jsstring
}.

Definition no_config : Config :=
  {| temperature := None; responseMimeType := None; responseSchema := None;
     systemInstruction := None; responseModalities := []; voiceName := None |}.

Record Request : Type := {
  model : jsstring;
  contents : Contents;
  config : Config
}.

(** What the code reads of a response: [response.text] and
    [response.candidates?.[0]?.content?.parts?.[0]?.inlineData?.data]. *)
Record Response : Type := {
  text : option jsstring;
  audio : option jsstring
}.

(** [{ inlineData: { mimeType, data: base64Data.split(',')[1] } }] *)
Definition mediaPart (base64Data mimeType : jsstring) : Part :=
  InlineData mimeType (split comma base64Data !! 1%nat).

(** *** generateStoryFromMedia *)

Definition story_prompt (mediaType language : jsstring) : jsstring :=
  js "Analyze the mood, lighting, characters, and environment of this "
    ++ mediaType
    ++ js ". "
    ++ nl
    ++ js "  Ghostwrite a single, compelling opening paragraph for a literary story set in this world. "
    ++ nl
    ++ js "  Write the story in "
    ++ language
    ++ js ". "
    ++ nl
    ++ js "  If Hindi, use poetic and literary Hindi (Devanagari script). "
    ++ nl
    ++ js "  Focus on sensory details and establishing a unique atmosphere. Do not provide commentary, just the paragraph.".

Definition generateStoryFromMedia_request (base64Data mimeType language : jsstring)
    : Request :=
  let mediaType :=
    if startsWith mimeType (js "video") then js "video" else js "image" in
  let prompt := story_prompt mediaType language in
  {| model := js "gemini-3-pro-preview";
     contents := OneContent
                   {| role := None;
                      parts := [mediaPart base64Data mimeType; TextPart prompt] |};
     config := {| temperature := Some 1%Q; responseMimeType := None;
                  responseSchema := None; systemInstruction := None;
                  responseModalities := []; voiceName := None |} |}.

(** *** generateStorySuggestions *)

Definition suggestions_prompt (mediaType paragraph language : jsstring)
    : jsstring :=
  js "Based on the provided "
    ++ mediaType
    ++ js " and the following opening paragraph: "
    ++ dquote
    ++ paragraph
    ++ dquote
    ++ js ", "
    ++ nl
    ++ js "  generate 3 diverse creative suggestions to continue the story. "
    ++ nl
    ++ js "  Each suggestion should be short (1-2 sentences) and labeled as either 'plot', 'character', or 'setting'."
    ++ nl
    ++ js "  Write the suggestions in "
    ++ language
    ++ js "."
    ++ nl
    ++ js "  Return the output as a valid JSON array of objects with "
    ++ dquote
    ++ js "type"
    ++ dquote
    ++ js " and "
    ++ dquote
    ++ js "text"
    ++ dquote
    ++ js " fields.".

Definition suggestions_schema : Schema :=
  SArray
    (SObject
       [(js "type", SString (Some (js "Must be 'plot', 'character', or 'setting'")));
        (js "text", SString None)]
       [js "type"; js "text"]).

Definition generateStorySuggestions_request
    (base64Data mimeType : option jsstring) (paragraph language : jsstring)
    : Request :=
  let mediaType :=
    match mimeType with
    | Some m => if startsWith m (js "video") then js "video" else js "image"
    | None => js "image"
    end in
  let prompt := suggestions_prompt mediaType paragraph language in
  let parts := [TextPart prompt] in
  let parts :=
    match both_present base64Data mimeType with
    | Some (b, m) => mediaPart b m :: parts
    | None => parts
    end in
  {| model := js "gemini-3-pro-preview";
     contents := OneContent {| role := None; parts := parts |};
     config := {| temperature := None;
                  responseMimeType := Some (js "application/json");
                  responseSchema := Some suggestions_schema;
                  systemInstruction := None;
                  responseModalities := []; voiceName := None |} |}.

(** The end of [generateStorySuggestions]:
    [try { return JSON.parse(response.text || "[]"); } catch (e) { return []; }] *)
Definition parse_suggestions (response : Response) : Json.json :=
  try_catch (Json.parse (or_else (text response) (js "[]")))
            (fun _ => Json.JArray []).

(** *** chatWithStoryAssistant *)

(** The arrays of turns that the chat code allocates and changes live in a
    store, by location. *)
Abbreviation store := (gmap nat (list Content)).

Definition system_instruction : jsstring :=
  js "You are a creative writing assistant. Help the user expand, refine, or critique their story based on the image/video and opening paragraph. Be encouraging and evocative in your feedback.".

(** [[...history]] into a new array, then [contents.push(turn)];
    [history] is the location of an array of the store. *)
Definition chat_contents (σ : store) (history : nat) (message : jsstring)
    (base64Data mimeType : option jsstring) : nat * store :=
  let contents := fresh (dom σ) in
  let σ := <[contents := default [] (σ !! history)]> σ in
  let turn :=
    match both_present base64Data mimeType with
    | Some (b, m) =>
        {| role := Some (js "user");
           parts := [mediaPart b m; TextPart message] |}
    | None =>
        {| role := Some (js "user"); parts := [TextPart message] |}
    end in
  (contents, alter (fun a => a ++ [turn]) contents σ).

Definition chatWithStoryAssistant_request (σ : store) (history : nat)
    (message : jsstring) (base64Data mimeType : option jsstring)
    : Request * store :=
  let '(contents, σ') := chat_contents σ history message base64Data mimeType in
  ({| model := js "gemini-3-pro-preview";
      contents := ManyContents (default [] (σ' !! contents));
      config := {| temperature := None; responseMimeType := None;
                   responseSchema := None;
                   systemInstruction := Some system_instruction;
                   responseModalities := []; voiceName := None |} |},
   σ').

(** *** narrateText *)

Definition narrateText_request (text : jsstring) : Request :=
  {| model := js "gemini-2.5-flash-preview-tts";
     contents :=
       ManyContents
         [{| role := None;
             parts := [TextPart (js "Narrate the following story excerpt with deep emotion and atmospheric weight: " ++ text)] |}];
     config := {| temperature := None; responseMimeType := None;
                  responseSchema := None; systemInstruction := None;
                  responseModalities := [js "AUDIO"];
                  voiceName := Some (js "Kore") |} |}.

(** *** The functions, over the content service

    [ai.models.generateContent] is the external service: it answers a
    request with a response or fails. *)
Section Service.

Variable generateContent : Request -> result Response.

Definition generateStoryFromMedia (base64Data mimeType language : jsstring)
    : result jsstring :=
  response ← generateContent
               (generateStoryFromMedia_request base64Data mimeType language);
  Ok (or_else (text response) (js "Failed to generate story.")).

Definition generateStorySuggestions (base64Data mimeType : option jsstring)
    (paragraph language : jsstring) : result Json.json :=
  response ← generateContent
               (generateStorySuggestions_request base64Data mimeType
                                                 paragraph language);
  Ok (parse_suggestions response).

Definition chatWithStoryAssistant (σ : store) (history : nat)
    (message : jsstring) (base64Data mimeType : option jsstring)
    : result jsstring * store :=
  let '(request, σ') :=
    chatWithStoryAssistant_request σ history message base64Data mimeType in
  (response ← generateContent request;
   Ok (or_else (text response) (js "I'm sorry, I couldn't process that.")),
   σ').

Definition narrateText (text : jsstring) : result Codec.Uint8Array :=
  response ← generateContent (narrateText_request text);
  match audio response with
  | Some (c :: r) => Codec.decode (c :: r)
  | _ => Throw NoAudioData
  end.

End Service.

(** *** Notions used to state the facts about the requests *)

(** The inline media parts of a request, in order. *)
Definition media_of_parts (ps : list Part) : list Part :=
  List.filter (fun p => match p with InlineData _ _ => true | _ => false end) ps.

Definition turns (r : Request) : list Content :=
  match contents r with
  | OneContent c => [c]
  | ManyContents cs => cs
  end.

Definition request_media (r : Request) : list Part :=
  flat_map (fun c => media_of_parts (parts c)) (turns r).

(** What follows the first comma of a string, if it has one. *)
Fixpoint after_first_comma (s : jsstring) : option jsstring :=
  match s with
  | [] => None
  | c :: r => if c =? comma then Some r else after_first_comma r
  end.

(** A string up to its first comma, or all of it. *)
Fixpoint up_to_comma (s : jsstring) : jsstring :=
  match s with
  | [] => []
  | c :: r => if c =? comma then [] else c :: up_to_comma r
  end.

(** The declared type [StorySuggestion] of types.ts; its fields [type] and
    [text] are [suggestion_type] and [suggestion_text] here, where [text]
    is already a field of [Response]. *)
Inductive SuggestionType : Type := plot | character | setting.

Record StorySuggestion : Type := {
  suggestion_type : SuggestionType;
  suggestion_text : jsstring
}.

Definition suggestion_type_name (t : SuggestionType) : jsstring :=
  match t with
  | plot => js "plot"
  | character => js "character"
  | setting => js "setting"
  end.

Definition to_json (s : StorySuggestion) : Json.json :=
  Json.JObject
    (<[js "type" := Json.JString (suggestion_type_name (suggestion_type s))]>
       (<[js "text" := Json.JString (suggestion_text s)]> ∅)).

(** ["..."] as it stands in a JSON text, for a literal without escapes. *)
Definition quoted (s : string) : jsstring := dquote ++ js s ++ dquote.

(** A response text of three suggestions. *)
Definition three_suggestions : jsstring :=
  js "[{" ++ quoted "type" ++ js ":" ++ quoted "plot" ++ js ","
          ++ quoted "text" ++ js ":" ++ quoted "A storm breaks." ++ js "},"
  ++ js " {" ++ quoted "type" ++ js ":" ++ quoted "character" ++ js ","
          ++ quoted "text" ++ js ":" ++ quoted "Mara hides a map." ++ js "},"
  ++ js " {" ++ quoted "type" ++ js ":" ++ quoted "setting" ++ js ","
          ++ quoted "text" ++ js ":" ++ quoted "The harbour at dusk." ++ js "}]".

(** A suggestion and a sequence of suggestions written as JSON text. *)
Definition print_suggestion (s : StorySuggestion) : jsstring :=
  js "{" ++ Json.print_string (js "type") ++ js ":"
         ++ Json.print_string (suggestion_type_name (suggestion_type s))
  ++ js "," ++ Json.print_string (js "text") ++ js ":"
            ++ Json.print_string (suggestion_text s)
  ++ js "}".

Fixpoint print_elements (l : list StorySuggestion) : jsstring :=
  match l with
  | [] => []
  | [s] => print_suggestion s
  | s :: r => print_suggestion s ++ js "," ++ print_elements r
  end.

Definition print_suggestions (l : list StorySuggestion) : jsstring :=
  js "[" ++ print_elements l ++ js "]".

(** No text needs an escape. *)
Definition plain_texts (l : list StorySuggestion) : Prop :=
  Forall (fun s => Forall Json.plain (suggestion_text s)) l.

(** The tokens of a suggestion and of a sequence of them. *)
Definition suggestion_tokens (s : StorySuggestion) : list Json.token :=
  [Json.TLBrace; Json.TString (js "type"); Json.TColon;
   Json.TString (suggestion_type_name (suggestion_type s)); Json.TComma;
   Json.TString (js "text"); Json.TColon;
   Json.TString (suggestion_text s); Json.TRBrace].

Fixpoint elements_tokens (l : list StorySuggestion) : list Json.token :=
  match l with
  | [] => []
  | [s] => suggestion_tokens s
  | s :: r => suggestion_tokens s ++ [Json.TComma] ++ elements_tokens r
  end.

(** A value has the two required fields of the response schema, both
    strings. *)
Definition has_required_fields (v : Json.json) : bool :=
  match v with
  | Json.JObject fields =>
      match fields !! js "type", fields !! js "text" with
      | Some (Json.JString _), Some (Json.JString _) => true
      | _, _ => false
      end
  | _ => false
  end.

(** [pieces.join(sep)] for a separator of one code unit. *)
Fixpoint join (sep : Z) (pieces : list jsstring) : jsstring :=
  match pieces with
  | [] => []
  | [piece] => piece
  | piece :: rest => piece ++ sep :: join sep rest
  end.

(** The parts of the one content of a request, or none. *)
Definition single_parts (r : Request) : list Part :=
  match contents r with
  | OneContent c => parts c
  | ManyContents _ => []
  end.

End Gemini.

(** ** Handlers that wait for the service

    An async handler runs up to its first [await] when the event arrives, and
    the rest when the awaited call has settled; other events may come in
    between.  [sync] is the state update of the first part, [settle] that of
    the rest; both are functions of the state current at that moment, as the
    updaters [setState(prev => ...)] are.  The handler itself reads the
    state of the render it was created in. *)

Record Async (S : Type) : Type := {
  sync : S -> S;
  settle : S -> S
}.
Arguments sync {S} _ _.
Arguments settle {S} _ _.

(** ** components/ChatBot.tsx *)

Module ChatBot.

Local Open Scope Z_scope.

Inductive Role : Type := user | model.

Record Message : Type := {
  role : Role;
  text : jsstring
}.

Definition role_name (r : Role) : jsstring :=
  match r with
  | user => js "user"
  | model => js "model"
  end.

Record Props : Type := {
  media : option jsstring;
  mimeType : option jsstring;
  storyContext : jsstring
}.

Record State : Type := {
  messages : list Message;
  input : jsstring;
  isLoading : bool
}.

Definition greeting : jsstring :=
  js "Tell me more about this world. Should we dive deeper into the characters or describe the setting further?".

Definition initial : State :=
  {| messages := [{| role := model; text := greeting |}];
     input := [];
     isLoading := false |}.

(** White space and line terminators of ECMAScript. *)
Definition is_white_space (c : Z) : bool :=
  ((9 <=? c) && (c <=? 13)) || (c =? 32) || (c =? 160) || (c =? 5760)
  || ((8192 <=? c) && (c <=? 8202)) || (c =? 8232) || (c =? 8233)
  || (c =? 8239) || (c =? 8287) || (c =? 12288) || (c =? 65279).

Fixpoint trimStart (s : jsstring) : jsstring :=
  match s with
  | c :: r => if is_white_space c then trimStart r else s
  | [] => []
  end.

Definition trim (s : jsstring) : jsstring :=
  rev (trimStart (rev (trimStart s))).

Definition append (m : Message) (prev : State) : State :=
  {| messages := messages prev ++ [m];
     input := input prev;
     isLoading := isLoading prev |}.

(** [messages.map(m => ({ role: m.role, parts: [{ text: m.text }] }))] *)
Definition history_of (ms : list Message) : list Gemini.Content :=
  map (fun m => {| Gemini.role := Some (role_name (role m));
                   Gemini.parts := [Gemini.TextPart (text m)] |}) ms.

Section Service.

Variable generateContent : Gemini.Request -> result Gemini.Response.

(** [handleSend] in the render with state [render]; [σ] is the store of
    arrays at the time.  Nothing happens when the input is blank or a call
    is under way. *)
Definition handleSend (props : Props) (σ : gmap nat (list Gemini.Content))
    (render : State) : option (Async State) :=
  if negb (truthy (trim (input render))) || isLoading render then None
  else
    let userMsg := input render in
    let history := fresh (dom σ) in
    let σ := <[history := history_of (messages render)]> σ in
    let '(outcome, _) :=
      Gemini.chatWithStoryAssistant generateContent σ history userMsg
                                    (media props) (mimeType props) in
    Some
      {| sync := fun prev =>
           {| messages := messages prev ++ [{| role := user; text := userMsg |}];
              input := [];
              isLoading := true |};
         settle := fun prev =>
           let prev :=
             try_catch
               (response ← outcome;
                Ok (append {| role := model; text := response |} prev))
               (fun _ =>
                  append {| role := model;
                            text := js "Error connecting to the Story Assistant." |}
                         prev) in
           {| messages := messages prev;
              input := input prev;
              isLoading := false |} |}.

End Service.

(** [onChange={(e) => setInput(e.target.value)}] *)
Definition setInput (value : jsstring) (prev : State) : State :=
  {| messages := messages prev; input := value; isLoading := isLoading prev |}.

(** *** The operations of the conversation state, as the handler performs
    them *)

Definition appendUser (t : jsstring) (s : State) : State :=
  append {| role := user; text := t |} s.

Definition appendModel (t : jsstring) (s : State) : State :=
  append {| role := model; text := t |} s.

Definition snapshot (s : State) : list Message := messages s.

(** *** Notions used to state the facts about the conversation *)

(** The request that [handleSend] has [chatWithStoryAssistant] send. *)
Definition handleSend_request (props : Props)
    (σ : gmap nat (list Gemini.Content)) (render : State) : Gemini.Request :=
  let history := fresh (dom σ) in
  (Gemini.chatWithStoryAssistant_request
     (<[history := history_of (messages render)]> σ) history (input render)
     (media props) (mimeType props)).1.

(** One exchange: the text is typed, Enter is pressed, and the call
    settles before anything else happens. *)
Definition exchange
    (generateContent : Gemini.Request -> result Gemini.Response)
    (props : Props) (σ : gmap nat (list Gemini.Content))
    (typed : jsstring) (s : State) : State :=
  let render := setInput typed s in
  match handleSend generateContent props σ render with
  | Some h => settle h (sync h render)
  | None => render
  end.

Definition converse
    (generateContent : Gemini.Request -> result Gemini.Response)
    (props : Props) (σ : gmap nat (list Gemini.Content))
    (typed : list jsstring) (s : State) : State :=
  fold_left (fun s t => exchange generateContent props σ t s) typed s.

Definition other (r : Role) : Role :=
  match r with
  | user => model
  | model => user
  end.

Definition same_role (r1 r2 : Role) : bool :=
  match r1, r2 with
  | user, user | model, model => true
  | _, _ => false
  end.

(** The roles of the messages alternate, starting with [first]. *)
Fixpoint alternates (first : Role) (ms : list Message) : bool :=
  match ms with
  | [] => true
  | m :: r => same_role (role m) first && alternates (other first) r
  end.

Definition blank (t : jsstring) : bool := negb (truthy (trim t)).

End ChatBot.

(** ** App.tsx *)

Module App.

Local Open Scope Z_scope.

Inductive AppLanguage : Type := English | Hindi.

Definition language_name (l : AppLanguage) : jsstring :=
  match l with
  | English => js "English"
  | Hindi => js "Hindi"
  end.

(** [suggestions] holds whatever [generateStorySuggestions] returned. *)
Record StoryState : Type := {
  image : option jsstring;
  mediaMimeType : option jsstring;
  paragraph : jsstring;
  title : jsstring;
  isAnalyzing : bool;
  isReading : bool;
  language : AppLanguage;
  suggestions : Json.json;
  isGeneratingSuggestions : bool
}.

Definition initial : StoryState :=
  {| image := None; mediaMimeType := None; paragraph := []; title := [];
     isAnalyzing := false; isReading := false; language := English;
     suggestions := Json.JArray []; isGeneratingSuggestions := false |}.

Definition present (s : option jsstring) : bool :=
  match s with
  | Some x => truthy x
  | None => false
  end.

Definition ink_has_run_dry : jsstring :=
  js "The ink has run dry... Please try again.".

(** [disabled={!state.image || state.isAnalyzing}] of the analyze button. *)
Definition analyze_disabled (state : StoryState) : bool :=
  negb (present (image state)) || isAnalyzing state.

(** *** Audio sources

    An [AudioBufferSourceNode] that was started plays until its buffer ends
    or [stop()] is called; either way it is finished from then on and the
    platform queues its [ended] event, which runs [onended] when delivered.
    [stop()] on a finished source does nothing. *)
Inductive playback : Type := Playing | Finished.

Record Source : Type := {
  buffer : PCM.AudioBuffer;
  state : playback;
  ended_queued : bool
}.

(** The two refs of the component and the sources created so far; a source
    is known by its position in [sources]. *)
Record Audio : Type := {
  audioContextRef : option PCM.AudioContext;
  audioSourceRef : option nat;
  sources : list Source
}.

Definition no_audio : Audio :=
  {| audioContextRef := None; audioSourceRef := None; sources := [] |}.

Definition finish (s : Source) : Source :=
  match state s with
  | Playing => {| buffer := buffer s; state := Finished; ended_queued := true |}
  | Finished => s
  end.

(** [if (audioSourceRef.current) audioSourceRef.current.stop();] *)
Definition stop_current (a : Audio) : Audio :=
  match audioSourceRef a with
  | Some n =>
      {| audioContextRef := audioContextRef a;
         audioSourceRef := audioSourceRef a;
         sources := alter finish n (sources a) |}
  | None => a
  end.

(** [createBufferSource], [buffer], [connect], [onended], [start()] and
    [audioSourceRef.current = source]. *)
Definition start_source (b : PCM.AudioBuffer) (a : Audio) : Audio :=
  {| audioContextRef := audioContextRef a;
     audioSourceRef := Some (length (sources a));
     sources := sources a ++ [{| buffer := b; state := Playing;
                                 ended_queued := false |}] |}.

Definition play (b : PCM.AudioBuffer) (a : Audio) : Audio :=
  start_source b (stop_current a).

Definition set_isReading (v : bool) (prev : StoryState) : StoryState :=
  {| image := image prev; mediaMimeType := mediaMimeType prev;
     paragraph := paragraph prev; title := title prev;
     isAnalyzing := isAnalyzing prev; isReading := v;
     language := language prev; suggestions := suggestions prev;
     isGeneratingSuggestions := isGeneratingSuggestions prev |}.

(** [source.onended = () => setState(prev => ({ ...prev, isReading: false }))] *)
Definition onended (prev : StoryState) : StoryState := set_isReading false prev.

(** What the platform does on its own: a playing source reaches the end of
    its buffer, or a queued [ended] event is delivered. *)
Definition ends_naturally (n : nat) (w : StoryState * Audio)
    : option (StoryState * Audio) :=
  let '(st, a) := w in
  match sources a !! n with
  | Some {| state := Playing |} =>
      Some (st, {| audioContextRef := audioContextRef a;
                   audioSourceRef := audioSourceRef a;
                   sources := alter finish n (sources a) |})
  | _ => None
  end.

Definition deliver_ended (n : nat) (w : StoryState * Audio)
    : option (StoryState * Audio) :=
  let '(st, a) := w in
  match sources a !! n with
  | Some s =>
      if ended_queued s then
        Some (onended st,
              {| audioContextRef := audioContextRef a;
                 audioSourceRef := audioSourceRef a;
                 sources := <[n := {| buffer := buffer s; state := state s;
                                      ended_queued := false |}]> (sources a) |})
      else None
  | None => None
  end.

Section Service.

Variable generateContent : Gemini.Request -> result Gemini.Response.

(** The context that [new AudioContext({ sampleRate: 24000 })] gives. *)
Variable platform_context : PCM.AudioContext.

(** *** handleAnalyze *)

Definition handleAnalyze (render : StoryState) : option (Async StoryState) :=
  match image render, mediaMimeType render with
  | Some img, Some mime =>
      if negb (truthy img) || negb (truthy mime) then None
      else
        Some
          {| sync := fun prev =>
               {| image := image prev; mediaMimeType := mediaMimeType prev;
                  paragraph := []; title := title prev;
                  isAnalyzing := true; isReading := isReading prev;
                  language := language prev; suggestions := Json.JArray [];
                  isGeneratingSuggestions := isGeneratingSuggestions prev |};
             settle := fun prev =>
               try_catch
                 (paragraph ← Gemini.generateStoryFromMedia
                                generateContent img mime
                                (language_name (language render));
                  Ok {| image := image prev;
                        mediaMimeType := mediaMimeType prev;
                        paragraph := paragraph; title := title prev;
                        isAnalyzing := false; isReading := isReading prev;
                        language := language prev;
                        suggestions := suggestions prev;
                        isGeneratingSuggestions :=
                          isGeneratingSuggestions prev |})
                 (fun _ =>
                    {| image := image prev;
                       mediaMimeType := mediaMimeType prev;
                       paragraph := ink_has_run_dry; title := title prev;
                       isAnalyzing := false; isReading := isReading prev;
                       language := language prev;
                       suggestions := suggestions prev;
                       isGeneratingSuggestions :=
                         isGeneratingSuggestions prev |}) |}
  | _, _ => None
  end.

(** *** handleGetSuggestions

    [setActiveTab('sparks')] changes which tab is shown, not the story
    state; it is left out. *)

Definition set_suggesting (v : bool) (prev : StoryState) : StoryState :=
  {| image := image prev; mediaMimeType := mediaMimeType prev;
     paragraph := paragraph prev; title := title prev;
     isAnalyzing := isAnalyzing prev; isReading := isReading prev;
     language := language prev; suggestions := suggestions prev;
     isGeneratingSuggestions := v |}.

Definition handleGetSuggestions (render : StoryState)
    : option (Async StoryState) :=
  if negb (truthy (paragraph render)) || isGeneratingSuggestions render
  then None
  else
    Some
      {| sync := set_suggesting true;
         settle := fun prev =>
           try_catch
             (suggestions ← Gemini.generateStorySuggestions
                              generateContent (image render)
                              (mediaMimeType render) (paragraph render)
                              (language_name (language render));
              Ok {| image := image prev; mediaMimeType := mediaMimeType prev;
                    paragraph := paragraph prev; title := title prev;
                    isAnalyzing := isAnalyzing prev;
                    isReading := isReading prev;
                    language := language prev; suggestions := suggestions;
                    isGeneratingSuggestions := false |})
             (fun _ => set_suggesting false prev) |}.

(** *** handleReadAloud *)

Definition handleReadAloud (render : StoryState)
    : option (Async (StoryState * Audio)) :=
  if negb (truthy (paragraph render)) || isReading render then None
  else
    Some
      {| sync := fun '(prev, a) =>
           (set_isReading true prev,
            match audioContextRef a with
            | Some _ => a
            | None => {| audioContextRef := Some platform_context;
                         audioSourceRef := audioSourceRef a;
                         sources := sources a |}
            end);
         settle := fun '(prev, a) =>
           try_catch
             (let textToRead :=
                if truthy (title render)
                then title render ++ js ". " ++ paragraph render
                else paragraph render in
              audioBytes ← Gemini.narrateText generateContent textToRead;
              audioBuffer ← PCM.decodeAudioData
                              audioBytes
                              (default platform_context (audioContextRef a))
                              24000%Q 1;
              Ok (prev, play audioBuffer a))
             (fun _ => (set_isReading false prev, a)) |}.

End Service.

(** *** handlePaste, handleMediaUpload and the title and language
    controls *)

(** A file, with what a [FileReader] gives for it: the data URL, or
    nothing when reading fails. *)
Record File : Type := {
  file_type : jsstring;
  read_result : option jsstring
}.

(** An item of the clipboard. *)
Record Item : Type := {
  item_type : jsstring;
  getAsFile : option File
}.

(** The update that both readers make once the file is read. *)
Definition media_loaded (result : option jsstring) (mimeType : jsstring)
    (prev : StoryState) : StoryState :=
  {| image := result; mediaMimeType := Some mimeType;
     paragraph := []; title := [];
     isAnalyzing := isAnalyzing prev; isReading := isReading prev;
     language := language prev; suggestions := Json.JArray [];
     isGeneratingSuggestions := isGeneratingSuggestions prev |}.

(** [s.indexOf(sub) !== -1] *)
Fixpoint includes (s sub : jsstring) : bool :=
  Gemini.startsWith s sub
  || match s with
     | [] => false
     | _ :: r => includes r sub
     end.

(** The loop of [handlePaste] from item [i] on: the first item of an image
    or video type that gives a file is read, and the loop ends there;
    [onload] runs only when the read succeeds. *)
Fixpoint handlePaste_loop (items : list Item)
    : option (StoryState -> StoryState) :=
  match items with
  | [] => None
  | item :: rest =>
      if includes (item_type item) (js "image")
         || includes (item_type item) (js "video")
      then
        match getAsFile item with
        | Some blob =>
            match read_result blob with
            | Some url => Some (media_loaded (Some url) (item_type item))
            | None => None
            end
        | None => handlePaste_loop rest
        end
      else handlePaste_loop rest
  end.

(** [handlePaste]; the items are missing when the event has no clipboard
    data. *)
Definition handlePaste (items : option (list Item))
    : option (StoryState -> StoryState) :=
  match items with
  | None => None
  | Some items => handlePaste_loop items
  end.

(** [handleMediaUpload]: the first chosen file, if any; [onloadend] runs
    whether the read succeeded or not. *)
Definition handleMediaUpload (files : list File)
    : option (StoryState -> StoryState) :=
  match files with
  | [] => None
  | file :: _ => Some (media_loaded (read_result file) (file_type file))
  end.

Definition handleLanguageChange (lang : AppLanguage) (prev : StoryState)
    : StoryState :=
  {| image := image prev; mediaMimeType := mediaMimeType prev;
     paragraph := paragraph prev; title := title prev;
     isAnalyzing := isAnalyzing prev; isReading := isReading prev;
     language := lang; suggestions := suggestions prev;
     isGeneratingSuggestions := isGeneratingSuggestions prev |}.

(** [onChange={(e) => setState(prev => ({ ...prev, title: e.target.value }))}] *)
Definition setTitle (value : jsstring) (prev : StoryState) : StoryState :=
  {| image := image prev; mediaMimeType := mediaMimeType prev;
     paragraph := paragraph prev; title := value;
     isAnalyzing := isAnalyzing prev; isReading := isReading prev;
     language := language prev; suggestions := suggestions prev;
     isGeneratingSuggestions := isGeneratingSuggestions prev |}.

(** *** handleSave *)

(** [s.replace(/[:.]/g, '-')] *)
Definition dash_colons_and_dots (s : jsstring) : jsstring :=
  map (fun c => if (c =? 58) || (c =? 46) then 45 else c) s.

(** [s.replace(/\s+/g, '-')]: every run of white space becomes one dash.
    [after_space] tells that the character before was white space. *)
Fixpoint dash_spaces (after_space : bool) (s : jsstring) : jsstring :=
  match s with
  | [] => []
  | c :: r =>
      if ChatBot.is_white_space c then
        if after_space then dash_spaces true r else 45 :: dash_spaces true r
      else c :: dash_spaces false r
  end.

(** What [handleSave] offers for download. *)
Record Download : Type := {
  download : jsstring;
  content : jsstring
}.

Section Save.

(** [String.prototype.toLowerCase], whose case tables are the platform's. *)
Variable toLowerCase : jsstring -> jsstring.

(** [now] is [new Date().toISOString()]. *)
Definition handleSave (now : jsstring) (state : StoryState)
    : option Download :=
  if negb (truthy (paragraph state)) then None
  else
    let content :=
      (if truthy (title state) then title state else js "Untitled Story")
        ++ Gemini.nl ++ Gemini.nl ++ paragraph state in
    let timestamp := dash_colons_and_dots now in
    let fileName :=
      if truthy (title state)
      then dash_spaces false (toLowerCase (title state))
             ++ js "-" ++ language_name (language state) ++ js ".txt"
      else js "story-ai-" ++ language_name (language state)
             ++ js "-" ++ timestamp ++ js ".txt" in
    Some {| download := fileName; content := content |}.

End Save.

(** *** Notions used to state the facts about playback *)

(** The sources that are playing. *)
Definition playing (a : Audio) : list nat :=
  List.filter (fun n => match sources a !! n with
                        | Some {| state := Playing |} => true
                        | _ => false
                        end)
              (seq 0 (length (sources a))).

Inductive event : Type :=
  | Play (b : PCM.AudioBuffer)
  | EndsNaturally (n : nat)
  | DeliverEnded (n : nat).

Definition step (e : event) (w : StoryState * Audio)
    : option (StoryState * Audio) :=
  match e with
  | Play b => Some (w.1, play b w.2)
  | EndsNaturally n => ends_naturally n w
  | DeliverEnded n => deliver_ended n w
  end.

Fixpoint run (es : list event) (w : StoryState * Audio)
    : option (StoryState * Audio) :=
  match es with
  | [] => Some w
  | e :: r => w' ← step e w; run r w'
  end.

Definition is_playing (a : Audio) (n : nat) : Prop :=
  exists s, sources a !! n = Some s /\ state s = Playing.

(** A source that plays is the current one: no two play at once. *)
Definition exclusive (a : Audio) : Prop :=
  forall n, is_playing a n -> audioSourceRef a = Some n.

(** A service that answers a suggestion request with malformed JSON and
    any other request with a paragraph. *)
Definition scripted_service (r : Gemini.Request) : result Gemini.Response :=
  match Gemini.responseMimeType (Gemini.config r) with
  | Some _ => Ok {| Gemini.text := Some (js "[{oops"); Gemini.audio := None |}
  | None => Ok {| Gemini.text := Some (js "The lamp guttered.");
                  Gemini.audio := None |}
  end.

Definition uploaded : StoryState :=
  {| image := Some (js "data:image/png;base64,iVBORw0KGgo=");
     mediaMimeType := Some (js "image/png");
     paragraph := []; title := []; isAnalyzing := false; isReading := false;
     language := English; suggestions := Json.JArray [];
     isGeneratingSuggestions := false |}.

(** One frame of silence. *)
Definition silence : PCM.AudioBuffer :=
  {| PCM.sampleRate := 24000%Q; PCM.length := 1;
     PCM.channels := [[PCM.Fin 0%Q]] |}.

(** The states that events lead to from the first render. *)
Definition reachable (w : StoryState * Audio) : Prop :=
  exists es, run es (initial, no_audio) = Some w.

(** An [ended] event is queued only for a source that has finished. *)
Definition queued_finished (a : Audio) : Prop :=
  forall n s, sources a !! n = Some s -> ended_queued s = true ->
              state s = Finished.

(** Source [n] has finished and its [ended] event has been delivered. *)
Definition signalled (a : Audio) (n : nat) : Prop :=
  exists s, sources a !! n = Some s /\ state s = Finished
            /\ ended_queued s = false.

(** *** Notions used to state the facts about the other handlers *)

(** The item types that [handlePaste] takes for media. *)
Definition is_media_type (t : jsstring) : bool :=
  includes t (js "image") || includes t (js "video").

(** What [handleReadAloud] has narrated: the title, when there is one, a
    full stop and the paragraph. *)
Definition text_to_read (render : StoryState) : jsstring :=
  if truthy (title render)
  then title render ++ js ". " ++ paragraph render
  else paragraph render.

(** The state [prev] with paragraph [story] and [isAnalyzing] cleared. *)
Definition analysed (story : jsstring) (prev : StoryState) : StoryState :=
  {| image := image prev; mediaMimeType := mediaMimeType prev;
     paragraph := story; title := title prev;
     isAnalyzing := false; isReading := isReading prev;
     language := language prev; suggestions := suggestions prev;
     isGeneratingSuggestions := isGeneratingSuggestions prev |}.

(** The state [prev] with suggestions [found] and
    [isGeneratingSuggestions] cleared. *)
Definition suggested (found : Json.json) (prev : StoryState) : StoryState :=
  {| image := image prev; mediaMimeType := mediaMimeType prev;
     paragraph := paragraph prev; title := title prev;
     isAnalyzing := isAnalyzing prev; isReading := isReading prev;
     language := language prev; suggestions := found;
     isGeneratingSuggestions := false |}.

(** A clipboard with a text item, an image item that gives no file, an
    image item with a file and a video item with a file. *)
Definition clipboard : list Item :=
  [{| item_type := js "text/plain"; getAsFile := None |};
   {| item_type := js "image/png"; getAsFile := None |};
   {| item_type := js "image/jpeg";
      getAsFile := Some {| file_type := js "image/jpeg";
                           read_result := Some (js "data:image/jpeg;base64,/9j/") |} |};
   {| item_type := js "video/mp4";
      getAsFile := Some {| file_type := js "video/mp4";
                           read_result := Some (js "data:video/mp4;base64,AAAA") |} |}].

End App.

(** * Properties *)

(** ** Lists and loops over arrays *)

Module ArrayLoops.

Local Open Scope nat_scope.

(** Lists taken three elements at a time, as [base64_encode] does. *)
Lemma list_ind3 {A} (P : list A -> Prop) :
  P [] -> (forall a, P [a]) -> (forall a b, P [a; b]) ->
  (forall a b c r, P r -> P (a :: b :: c :: r)) ->
  forall l, P l.
Proof.
  intros H0 H1 H2 H3 l.
  enough (P l /\ (forall a, P (a :: l)) /\ (forall a b, P (a :: b :: l))) by tauto.
  induction l as [|x l (IH0 & IH1 & IH2)]; [auto|].
  split; [apply IH1|]. split; [intros a; apply IH2|]. intros a b. apply H3, IH0.
Qed.

Lemma list_ind2 {A} (P : list A -> Prop) :
  P [] -> (forall a, P [a]) -> (forall a b r, P r -> P (a :: b :: r)) ->
  forall l, P l.
Proof.
  intros H0 H1 H2 l.
  enough (P l /\ forall a, P (a :: l)) by tauto.
  induction l as [|x l [IH0 IH1]]; [auto|].
  split; [apply IH1|]. intros a. apply H2, IH0.
Qed.

Lemma fold_left_ext {A B} (f g : A -> B -> A) (l : list B) (a : A) :
  (forall a x, f a x = g a x) -> fold_left f l a = fold_left g l a.
Proof.
  intros H. revert a. induction l as [|x l IH]; intros a; [done|].
  cbn. by rewrite H, IH.
Qed.

(** A loop [for (i = 0; i < n; i++) l[i] = f(i)] over an array of at least
    [n] elements writes [f 0 .. f (n-1)] and leaves the rest. *)
Lemma fill_loop {A} (f : nat -> A) (n : nat) (l : list A) :
  (n <= length l)%nat ->
  fold_left (fun l i => <[i := f i]> l) (seq 0 n) l
  = map f (seq 0 n) ++ drop n l.
Proof.
  induction n as [|n IH]; intros Hn; [by rewrite drop_0|].
  rewrite seq_S, fold_left_app, map_app. cbn [fold_left map Nat.add].
  rewrite IH by lia.
  destruct (lookup_lt_is_Some_2 l n) as [x Hx]; [lia|].
  rewrite (drop_S l x n Hx).
  rewrite insert_app_r_alt by (rewrite length_map, length_seq; lia).
  rewrite length_map, length_seq, Nat.sub_diag. cbn.
  by rewrite <- app_assoc.
Qed.

Lemma map_lookup_seq {A B} (g : option A -> B) (l : list A) :
  map (fun i => g (l !! i)) (seq 0 (length l)) = map (fun x => g (Some x)) l.
Proof.
  apply list_eq. intros i.
  rewrite !list_lookup_fmap.
  destruct (decide (i < length l)%nat) as [Hi|Hi].
  - rewrite lookup_seq_lt by done. cbn.
    destruct (lookup_lt_is_Some_2 l i Hi) as [x Hx]. by rewrite Hx.
  - rewrite lookup_seq_ge by lia. by rewrite lookup_ge_None_2 by lia.
Qed.

(** Writes at indices outside an array leave it as it is. *)
Lemma insert_loop_ge {A} (f : nat -> A) (idx : list nat) (l : list A) :
  Forall (fun i => List.length l <= i) idx ->
  fold_left (fun l i => <[i := f i]> l) idx l = l.
Proof.
  induction 1 as [|i idx Hi _ IH]; [done|].
  cbn. by rewrite list_insert_ge.
Qed.

(** [for (i = 0; i < m; i++) l[i] = f(i)] with [m] at or beyond the length
    of [l] overwrites all of [l], and nothing else. *)
Lemma insert_loop_all {A} (f : nat -> A) (m : nat) (l : list A) :
  List.length l <= m ->
  fold_left (fun l i => <[i := f i]> l) (seq 0 m) l
  = map f (seq 0 (List.length l)).
Proof.
  intros Hm.
  replace m with (List.length l + (m - List.length l)) by lia.
  rewrite seq_app, fold_left_app, fill_loop by lia.
  rewrite drop_all, app_nil_r.
  apply insert_loop_ge. apply Forall_seq.
  intros j Hj. rewrite length_map, length_seq. cbn. lia.
Qed.

(** A loop that changes one element again and again changes it once. *)
Lemma alter_loop_same {A B} (g : B -> A -> A) (c : nat) (js : list B)
    (l : list A) :
  fold_left (fun l j => alter (g j) c l) js l
  = alter (fun x => fold_left (fun x j => g j x) js x) c l.
Proof.
  revert l. induction js as [|j js IH]; intros l; cbn.
  - symmetry. apply list_alter_id. done.
  - by rewrite IH, list_alter_alter_eq.
Qed.

(** [for (c = 0; c < n; c++) l[c] = g(c, l[c])] over the first [n]
    elements. *)
Lemma alter_loop_each {A} (g : nat -> A -> A) (n : nat) (l : list A) :
  n <= List.length l ->
  fold_left (fun l c => alter (g c) c l) (seq 0 n) l
  = imap g (take n l) ++ drop n l.
Proof.
  induction n as [|n IH]; intros Hn; [by rewrite take_0, drop_0|].
  rewrite seq_S, fold_left_app. cbn [fold_left Nat.add].
  rewrite IH by lia.
  destruct (lookup_lt_is_Some_2 l n) as [x Hx]; [lia|].
  rewrite (drop_S l x n Hx), (take_S_r l n x Hx).
  assert (Hlen : List.length (imap g (take n l)) = n).
  { rewrite length_imap, length_take. lia. }
  rewrite alter_app_r_alt by lia.
  rewrite Hlen, Nat.sub_diag. cbn [alter list_alter].
  rewrite imap_app, length_take, Nat.min_l by lia. cbn.
  rewrite Nat.add_0_r. by rewrite <- app_assoc.
Qed.

Lemma imap_replicate {A B} (g : nat -> A -> B) (n : nat) (x : A) :
  imap g (replicate n x) = map (fun c => g c x) (seq 0 n).
Proof.
  apply list_eq. intros i.
  rewrite list_lookup_imap, list_lookup_fmap.
  destruct (decide (i < n)) as [Hi|Hi].
  - rewrite lookup_replicate_2, lookup_seq_lt by done. done.
  - rewrite (proj1 (lookup_replicate_None n x i)) by lia.
    by rewrite lookup_seq_ge by lia.
Qed.

End ArrayLoops.

(** ** The codec *)

Module CodecFacts.
Import Codec ArrayLoops.
Local Open Scope Z_scope.
Local Open Scope list_scope.

Ltac divmod := Z.div_mod_to_equations; lia.

Lemma Forall3 {A} (P : A -> Prop) (a b c : A) (r : list A) :
  Forall P (a :: b :: c :: r) -> P a /\ P b /\ P c /\ Forall P r.
Proof. rewrite !Forall_cons. tauto. Qed.

(** *** The alphabet *)

Lemma lt64_enum (n : Z) : 0 <= n < 64 -> n ∈ sextets_lt64.
Proof.
  intros Hn. unfold sextets_lt64.
  apply list_elem_of_fmap. exists (Z.to_nat n). split; [lia|].
  apply elem_of_seq. lia.
Qed.

Lemma alphabet_facts : forallb alphabet_ok sextets_lt64 = true.
Proof. vm_compute. reflexivity. Qed.

Lemma sextet_char_facts (n : Z) :
  sextet n ->
  char_sextet (sextet_char n) = Some n
  /\ sextet_char n <> pad
  /\ is_ascii_whitespace (sextet_char n) = false.
Proof.
  intros Hn. pose proof alphabet_facts as H.
  rewrite forallb_forall in H.
  specialize (H n). rewrite <- list_elem_of_In in H.
  specialize (H (lt64_enum n Hn)). unfold alphabet_ok in H.
  destruct (char_sextet (sextet_char n)) as [m|]; [|discriminate].
  apply andb_prop in H as [H Hws]. apply andb_prop in H as [Hm Hpad].
  apply Z.eqb_eq in Hm. subst m. split; [reflexivity|]. split.
  - intros E. rewrite E, Z.eqb_refl in Hpad. discriminate.
  - by destruct (is_ascii_whitespace (sextet_char n)).
Qed.

(** *** Grouping into sextets and back *)

Ltac forall_list :=
  repeat first [apply Forall_nil_2 | apply Forall_cons_2].

Lemma group3_lt (a b c : Z) :
  octet a -> octet b -> octet c -> Forall sextet (group3 a b c).
Proof. intros. cbv [octet sextet group3] in *. forall_list; divmod. Qed.

Lemma group2_lt (a b : Z) :
  octet a -> octet b -> Forall sextet (group2 a b).
Proof. intros. cbv [octet sextet group2] in *. forall_list; divmod. Qed.

Lemma group1_lt (a : Z) : octet a -> Forall sextet (group1 a).
Proof. intros. cbv [octet sextet group1] in *. forall_list; divmod. Qed.

Lemma ungroup_group3 (a b c : Z) :
  octet a -> octet b -> octet c ->
  bytes_of_sextets (group3 a b c) = [a; b; c].
Proof.
  intros. cbv [octet group3 bytes_of_sextets ungroup4 app] in *.
  f_equal; [|f_equal; [|f_equal]]; divmod.
Qed.

Lemma ungroup_group2 (a b : Z) :
  octet a -> octet b -> bytes_of_sextets (group2 a b) = [a; b].
Proof.
  intros. cbv [octet group2 bytes_of_sextets ungroup3] in *.
  f_equal; [|f_equal]; divmod.
Qed.

Lemma ungroup_group1 (a : Z) :
  octet a -> bytes_of_sextets (group1 a) = [a].
Proof.
  intros. cbv [octet group1 bytes_of_sextets ungroup2] in *.
  f_equal; divmod.
Qed.

(** *** What [base64_encode] writes *)

Lemma base64_encode_shape (l : list Z) :
  base64_encode l = map sextet_char (sextets l) ++ padding l.
Proof.
  induction l as [|a|a b|a b c r IH] using list_ind3; try reflexivity.
  cbn [base64_encode sextets padding].
  by rewrite IH, map_app, <- app_assoc.
Qed.

Lemma sextets_range (l : list Z) : Forall octet l -> Forall sextet (sextets l).
Proof.
  induction l as [|a|a b|a b c r IH] using list_ind3; cbn [sextets]; intros H.
  - constructor.
  - apply Forall_cons in H as [Ha _]. by apply group1_lt.
  - apply Forall_cons in H as [Ha H]. apply Forall_cons in H as [Hb _].
    by apply group2_lt.
  - apply Forall3 in H as (Ha & Hb & Hc & H).
    apply Forall_app. split; [by apply group3_lt | by apply IH].
Qed.

Lemma sextets_length (l : list Z) : Z.of_nat (length (sextets l)) mod 4 <> 1.
Proof.
  induction l as [|a|a b|a b c r IH] using list_ind3; cbn [sextets].
  1-3: unfold group1, group2; cbn [length]; divmod.
  rewrite length_app. change (length (group3 _ _ _)) with 4%nat.
  rewrite Nat2Z.inj_add. divmod.
Qed.

Lemma base64_encode_length (l : list Z) :
  Z.of_nat (length (base64_encode l)) mod 4 = 0.
Proof.
  induction l as [|a|a b|a b c r IH] using list_ind3; try reflexivity.
  cbn [base64_encode]. rewrite length_app, length_map.
  change (length (group3 _ _ _)) with 4%nat.
  rewrite Nat2Z.inj_add. divmod.
Qed.

Lemma padding_cases (l : list Z) :
  padding l = [] \/ padding l = [pad] \/ padding l = [pad; pad].
Proof.
  induction l as [|a|a b|a b c r IH] using list_ind3; cbn [padding]; auto.
Qed.

Lemma bytes_of_sextets_group3 (a b c : Z) (r : list Z) :
  bytes_of_sextets (group3 a b c ++ r)
  = bytes_of_sextets (group3 a b c) ++ bytes_of_sextets r.
Proof.
  unfold group3. cbn [app bytes_of_sextets]. by rewrite app_nil_r.
Qed.

Lemma bytes_of_sextets_sextets (l : list Z) :
  Forall octet l -> bytes_of_sextets (sextets l) = l.
Proof.
  induction l as [|a|a b|a b c r IH] using list_ind3; cbn [sextets]; intros H.
  - reflexivity.
  - apply Forall_cons in H as [Ha _]. by apply ungroup_group1.
  - apply Forall_cons in H as [Ha H]. apply Forall_cons in H as [Hb _].
    by apply ungroup_group2.
  - apply Forall3 in H as (Ha & Hb & Hc & H).
    rewrite bytes_of_sextets_group3, ungroup_group3 by done.
    cbn [app]. by rewrite IH.
Qed.

(** *** What [atob] reads back *)

Lemma sextets_of_chars (ns : list Z) :
  Forall sextet ns -> sextets_of (map sextet_char ns) = Some ns.
Proof.
  induction 1 as [|n ns Hn _ IH]; [reflexivity|].
  cbn [map sextets_of].
  destruct (sextet_char_facts n Hn) as (-> & _ & _). by rewrite IH.
Qed.

Lemma chars_not_pad (ns : list Z) :
  Forall sextet ns -> Forall (fun c => c <> pad) (map sextet_char ns).
Proof.
  intros H. apply Forall_fmap. eapply Forall_impl; [exact H|].
  intros n Hn. by destruct (sextet_char_facts n Hn) as (_ & ? & _).
Qed.

Lemma chars_not_whitespace (ns : list Z) :
  Forall sextet ns ->
  Forall (fun c => is_ascii_whitespace c = false) (map sextet_char ns).
Proof.
  intros H. apply Forall_fmap. eapply Forall_impl; [exact H|].
  intros n Hn. by destruct (sextet_char_facts n Hn) as (_ & _ & ?).
Qed.

Lemma filter_keeps_all {A} (f : A -> bool) (l : list A) :
  Forall (fun x => f x = true) l -> List.filter f l = l.
Proof.
  induction 1 as [|x l Hx _ IH]; [reflexivity|].
  cbn. by rewrite Hx, IH.
Qed.

Lemma strip_padding_body (body p : jsstring) :
  Forall (fun c => c <> pad) body ->
  Z.of_nat (length (body ++ p)) mod 4 = 0 ->
  p = [] \/ p = [pad] \/ p = [pad; pad] ->
  strip_padding (body ++ p) = body.
Proof.
  intros Hbody Hlen Hp. unfold strip_padding.
  rewrite Hlen. cbn [Z.eqb]. rewrite rev_app_distr.
  assert (Hrev : Forall (fun c => c <> pad) (rev body)).
  { by apply List.Forall_rev. }
  assert (Hne : forall c, c <> pad -> (c =? pad) = false).
  { intros c Hc. by apply Z.eqb_neq. }
  destruct Hp as [-> | [-> | ->]]; cbn [rev app].
  - rewrite app_nil_r. destruct (rev body) as [|x [|y r]] eqn:E; [done| |].
    + apply Forall_cons in Hrev as [Hx _]. by rewrite (Hne _ Hx).
    + apply Forall_cons in Hrev as [Hx _]. by rewrite (Hne _ Hx).
  - destruct (rev body) as [|y r] eqn:E.
    + cbn. symmetry. by rewrite <- (rev_involutive body), E.
    + rewrite Z.eqb_refl.
      apply Forall_cons in Hrev as [Hy _]. rewrite (Hne _ Hy).
      change (rev r ++ [y]) with (rev (y :: r)).
      by rewrite <- E, rev_involutive.
  - rewrite !Z.eqb_refl. apply rev_involutive.
Qed.

Lemma atob_base64_encode (l : list Z) :
  Forall octet l -> atob (base64_encode l) = Ok l.
Proof.
  intros Hl. unfold atob.
  pose proof (sextets_range l Hl) as Hs.
  rewrite filter_keeps_all.
  2:{ rewrite base64_encode_shape. apply Forall_app. split.
      - eapply Forall_impl; [apply chars_not_whitespace, Hs|].
        cbn. intros c ->. reflexivity.
      - destruct (padding_cases l) as [-> | [-> | ->]];
          repeat constructor. }
  pose proof (base64_encode_length l) as Hlen.
  rewrite base64_encode_shape in Hlen |- *.
  rewrite strip_padding_body;
    [| by apply chars_not_pad | exact Hlen | apply padding_cases].
  rewrite length_map.
  destruct (Z.eqb_spec (Z.of_nat (length (sextets l)) mod 4) 1) as [E|_].
  { by apply sextets_length in E. }
  rewrite sextets_of_chars by exact Hs.
  by rewrite bytes_of_sextets_sextets.
Qed.

Lemma btoa_octets (l : jsstring) :
  Forall octet l -> btoa l = Ok (base64_encode l).
Proof.
  intros Hl. unfold btoa.
  replace (forallb (fun u => u <=? 255) l) with true; [done|].
  symmetry. apply forallb_forall. intros u Hu.
  rewrite Forall_forall in Hl. apply list_elem_of_In, Hl in Hu.
  unfold octet in Hu. lia.
Qed.

(** *** Bytes *)

Lemma byte_val_octet (b : byte) : octet (byte_val b).
Proof.
  unfold octet, byte_val. pose proof (Byte.to_N_bounded b). lia.
Qed.

Lemma to_uint8_byte_val (b : byte) : to_uint8 (Some (byte_val b)) = b.
Proof.
  unfold to_uint8. pose proof (byte_val_octet b) as H. unfold octet in H.
  rewrite Z.mod_small by lia. unfold byte_val.
  by rewrite N2Z.id, Byte.of_to_N.
Qed.

(** *** The loops of [encode] and [decode] *)

(** The loop of [encode] appends one code unit per byte, in order. *)
Lemma encode_loop (pre bytes : list byte) (acc : jsstring) :
  fold_left (fun binary i => binary ++ fromCharCode (byte_val <$> (pre ++ bytes) !! i))
            (seq (length pre) (length bytes)) acc
  = acc ++ map byte_val bytes.
Proof.
  revert pre acc. induction bytes as [|b bytes IH]; intros pre acc.
  - cbn. by rewrite app_nil_r.
  - cbn [length seq fold_left].
    rewrite list_lookup_middle by done.
    replace (pre ++ b :: bytes) with ((pre ++ [b]) ++ bytes)
      by (by rewrite <- app_assoc).
    replace (S (length pre)) with (length (pre ++ [b]))
      by (rewrite length_app; cbn; lia).
    rewrite IH. cbn [fmap option_fmap option_map fromCharCode].
    pose proof (byte_val_octet b) as Hb. unfold octet in Hb.
    rewrite Z.mod_small by lia. by rewrite <- app_assoc.
Qed.

Lemma encode_binary (bytes : Uint8Array) :
  encode bytes = btoa (map byte_val bytes).
Proof. unfold encode. f_equal. apply (encode_loop [] bytes []). Qed.

Lemma decode_binary (base64 binary : jsstring) :
  atob base64 = Ok binary ->
  decode base64 = Ok (map (fun u => to_uint8 (Some u)) binary).
Proof.
  intros H. unfold decode. rewrite H. cbn. f_equal.
  rewrite fill_loop by (by rewrite length_replicate).
  rewrite drop_ge by (by rewrite length_replicate).
  rewrite app_nil_r. unfold charCodeAt.
  apply (map_lookup_seq to_uint8).
Qed.

(** C3: every byte sequence survives [encode] followed by [decode]:
    [encode] returns a string and [decode] of that string returns the very
    bytes, for the empty sequence and for every byte value alike. *)
Theorem decode_encode_roundtrip (b : Uint8Array) :
  encode b ≫= decode = Ok b.
Proof.
  assert (Forall octet (map byte_val b)) as Hoct.
  { apply Forall_fmap, Forall_forall. intros x _. apply byte_val_octet. }
  rewrite encode_binary, btoa_octets by done. cbn [mbind result_bind].
  rewrite (decode_binary _ (map byte_val b)) by (by apply atob_base64_encode).
  rewrite map_map. f_equal. rewrite <- (map_id b) at 2.
  apply map_ext. intros x. apply to_uint8_byte_val.
Qed.

Example roundtrip_empty : encode [] ≫= decode = Ok [].
Proof. reflexivity. Qed.

Example encode_binary_bytes :
  encode [xff; xfe; x00; x80] = Ok (js "//4AgA==").
Proof. reflexivity. Qed.

Example decode_binary_bytes :
  decode (js "//4AgA==") = Ok [xff; xfe; x00; x80].
Proof. reflexivity. Qed.

(** [decode] refuses text outside the alphabet. *)
Example decode_malformed : decode (js "a*b=") = Throw InvalidCharacterError.
Proof. reflexivity. Qed.

(** *** More on [encode] and [decode] *)

Lemma sextet_char_in_alphabet (n : Z) : sextet n -> sextet_char n ∈ alphabet.
Proof.
  intros Hn. unfold sextet in Hn. unfold sextet_char.
  apply list_elem_of_In, List.nth_In.
  change (length alphabet) with 64%nat. lia.
Qed.

Lemma base64_encode_length4 (l : list Z) :
  Z.of_nat (length (base64_encode l)) = 4 * ((Z.of_nat (length l) + 2) / 3).
Proof.
  induction l as [|a|a b|a b c r IH] using list_ind3; try reflexivity.
  cbn [base64_encode]. rewrite length_app, length_map.
  change (length (group3 _ _ _)) with 4%nat. cbn [length].
  rewrite Nat2Z.inj_add, IH, !Nat2Z.inj_succ. divmod.
Qed.

Lemma byte_vals_octets (b : list byte) : Forall octet (map byte_val b).
Proof. apply Forall_fmap, Forall_forall. intros x _. apply byte_val_octet. Qed.

(** X1: the text of [encode] is four characters for every three bytes begun,
    all of them letters, digits, [+], [/] or the padding [=]. *)
Theorem encode_text_safe (bytes : Uint8Array) :
  exists s,
    encode bytes = Ok s
    /\ Z.of_nat (length s) = 4 * ((Z.of_nat (length bytes) + 2) / 3)
    /\ Forall (fun c => c ∈ alphabet \/ c = pad) s.
Proof.
  pose proof (byte_vals_octets bytes) as Hoct.
  exists (base64_encode (map byte_val bytes)).
  split; [by rewrite encode_binary, btoa_octets|]. split.
  - by rewrite base64_encode_length4, length_map.
  - rewrite base64_encode_shape. apply Forall_app. split.
    + apply Forall_fmap. eapply Forall_impl; [by apply sextets_range|].
      intros n Hn. left. by apply sextet_char_in_alphabet.
    + destruct (padding_cases (map byte_val bytes)) as [-> | [-> | ->]];
        repeat first [apply Forall_nil_2 | apply Forall_cons_2; [by right|]].
Qed.

Lemma decode_of_encode (b : Uint8Array) (s : jsstring) :
  encode b = Ok s -> decode s = Ok b.
Proof.
  pose proof (byte_vals_octets b) as Hoct.
  rewrite encode_binary, btoa_octets by done. intros [= <-].
  rewrite (decode_binary _ (map byte_val b)) by (by apply atob_base64_encode).
  rewrite map_map. f_equal. rewrite <- (map_id b) at 2.
  apply map_ext. intros x. apply to_uint8_byte_val.
Qed.

Lemma encode_nonempty (b : byte) (bytes : Uint8Array) :
  exists c s, encode (b :: bytes) = Ok (c :: s).
Proof.
  rewrite encode_binary, btoa_octets by apply byte_vals_octets.
  pose proof (base64_encode_length4 (map byte_val (b :: bytes))) as Hlen.
  destruct (base64_encode (map byte_val (b :: bytes))) as [|c s];
    [|by eauto].
  exfalso. cbn [map length] in Hlen. rewrite Nat2Z.inj_succ in Hlen.
  Z.div_mod_to_equations. lia.
Qed.

Lemma elem_of_rev {A} (l : list A) (x : A) : x ∈ rev l <-> x ∈ l.
Proof. rewrite !list_elem_of_In. symmetry. apply in_rev. Qed.

Lemma strip_padding_keeps (d : jsstring) (c : Z) :
  c ∈ d -> c <> pad -> c ∈ strip_padding d.
Proof.
  intros Hc Hne. unfold strip_padding.
  destruct (_ =? 0); [|done].
  assert (c ∈ rev d) as Hrev by (by apply elem_of_rev).
  destruct (rev d) as [|p [|q r]] eqn:E; [done| |].
  - destruct (Z.eqb_spec p pad) as [->|_]; [|done].
    apply list_elem_of_singleton in Hrev. congruence.
  - destruct (Z.eqb_spec p pad) as [->|_]; [|done].
    apply elem_of_cons in Hrev as [?|Hrev]; [congruence|].
    destruct (Z.eqb_spec q pad) as [->|_].
    + apply elem_of_cons in Hrev as [?|Hrev]; [congruence|].
      by apply elem_of_rev.
    + by apply elem_of_rev.
Qed.

Lemma sextets_of_foreign (d : jsstring) (c : Z) :
  c ∈ d -> char_sextet c = None -> sextets_of d = None.
Proof.
  induction d as [|x d IH]; intros Hc Hnone; [by apply elem_of_nil in Hc|].
  cbn [sextets_of]. apply elem_of_cons in Hc as [<-|Hc].
  - by rewrite Hnone.
  - rewrite (IH Hc Hnone). by destruct (char_sextet x).
Qed.

(** X2: [decode] refuses every text that holds a character outside the
    alphabet, other than white space and [=]. *)
Theorem decode_rejects_foreign (base64 : jsstring) (c : Z) :
  c ∈ base64 -> char_sextet c = None -> is_ascii_whitespace c = false ->
  c <> pad ->
  decode base64 = Throw InvalidCharacterError.
Proof.
  intros Hc Hnone Hws Hpad. unfold decode, atob.
  assert (c ∈ strip_padding
                (List.filter (fun c => negb (is_ascii_whitespace c)) base64))
    as Hin.
  { apply strip_padding_keeps; [|done].
    apply list_elem_of_In, filter_In. split; [by apply list_elem_of_In|].
    by rewrite Hws. }
  rewrite (sextets_of_foreign _ c Hin Hnone).
  by destruct (_ =? 1).
Qed.

Lemma decode_rejects_foreign_witness :
  42 ∈ js "QUJD*A==" /\ char_sextet 42 = None
  /\ decode (js "QUJD*A==") = Throw InvalidCharacterError.
Proof.
  assert (42 ∈ js "QUJD*A==") as Hin by (cbn; set_solver).
  split; [exact Hin|]. split; [reflexivity|].
  apply (decode_rejects_foreign (js "QUJD*A==") 42 Hin);
    [reflexivity | reflexivity | discriminate].
Defined.

(** X3: white space in the text makes no difference to [decode]. *)
Theorem decode_skips_whitespace (before after : jsstring) (w : Z) :
  is_ascii_whitespace w = true ->
  decode (before ++ w :: after) = decode (before ++ after).
Proof.
  intros Hw. unfold decode, atob.
  rewrite !List.filter_app. cbn [List.filter]. by rewrite Hw.
Qed.

Lemma decode_skips_whitespace_witness :
  decode (js "QUJD" ++ 10 :: js "RA==") = decode (js "QUJD" ++ js "RA==")
  /\ decode (js "QUJD" ++ js "RA==") = Ok [x41; x42; x43; x44].
Proof.
  split; [|reflexivity].
  by apply (decode_skips_whitespace (js "QUJD") (js "RA==") 10).
Defined.

End CodecFacts.

(** ** The PCM decoder *)

Module PCMFacts.
Import PCM ArrayLoops.
Local Open Scope nat_scope.

(** *** The 16-bit view of a byte buffer *)

Lemma int16_view_length (data : list byte) :
  List.length (int16_view data) = total_samples data.
Proof.
  unfold total_samples.
  induction data as [|a|a b r IH] using list_ind2; [done..|].
  cbn [int16_view List.length]. rewrite IH.
  change (S (S (List.length r))) with (1 * 2 + List.length r).
  by rewrite Nat.div_add_l.
Qed.

(** The element that the typed array shows for two bytes is the sample
    that the format defines for them. *)
Lemma int16_of_bytes_wrap (lo hi : byte) :
  int16_of_bytes lo hi
  = ((Codec.byte_val lo + 256 * Codec.byte_val hi + 32768) mod 65536
     - 32768)%Z.
Proof.
  unfold int16_of_bytes.
  pose proof (CodecFacts.byte_val_octet lo) as Hlo.
  pose proof (CodecFacts.byte_val_octet hi) as Hhi.
  unfold Codec.octet in *. cbv zeta.
  destruct (Z.ltb_spec (Codec.byte_val lo + 256 * Codec.byte_val hi) 32768);
    Z.div_mod_to_equations; lia.
Qed.

Lemma int16_view_lookup (data : list byte) (k : nat) :
  int16_view data !! k = int16At data k.
Proof.
  revert k. unfold int16At.
  induction data as [|a|a b r IH] using list_ind2; intros k.
  - done.
  - destruct k as [|k]; [done|].
    cbn [int16_view]. rewrite lookup_nil.
    replace (2 * S k) with (S (S (2 * k))) by lia. done.
  - destruct k as [|k].
    { cbn [int16_view]. cbn. by rewrite int16_of_bytes_wrap. }
    cbn [int16_view]. rewrite lookup_cons_ne_0 by done. cbn [pred].
    rewrite IH.
    replace (2 * S k) with (S (S (2 * k))) by lia.
    replace (S (S (2 * k)) + 1) with (S (S (2 * k + 1))) by lia.
    done.
Qed.

(** *** Numbers *)

Lemma div_nat_pos (n c : nat) :
  1 <= c ->
  exists q, div_nat n c = Fin q /\ (0 <= q)%Q
            /\ Qfloor q = Z.of_nat (n / c).
Proof.
  intros Hc. destruct c as [|c]; [lia|].
  eexists. split; [reflexivity|]. split.
  - apply Qle_shift_div_l.
    + change 0%Q with (inject_Z 0). rewrite <- Zlt_Qlt. lia.
    + rewrite Qmult_0_l. change 0%Q with (inject_Z 0).
      rewrite <- Zle_Qle. lia.
  - rewrite <- Zdiv_Qdiv. by rewrite Nat2Z.inj_div.
Qed.

Lemma to_unsigned_long_nonneg (q : Q) :
  (0 <= q)%Q -> (Qfloor q < 2 ^ 32)%Z ->
  to_unsigned_long (Fin q) = Qfloor q.
Proof.
  intros Hq Hlt. unfold to_unsigned_long.
  assert (0 <= Qfloor q)%Z.
  { change 0%Z with (Qfloor 0). by apply Qfloor_resp_le. }
  destruct (q ?= 0)%Q eqn:E.
  - apply Z.mod_small. lia.
  - apply Qlt_alt in E. by apply Qle_not_lt in Hq.
  - apply Z.mod_small. lia.
Qed.

Lemma iterations_floor (q : Q) : Z.to_nat (Qfloor q) <= iterations (Fin q).
Proof.
  unfold iterations. pose proof (Qle_floor_ceiling q) as H.
  rewrite <- Zle_Qle in H. lia.
Qed.

(** [iterations] counts the indices that pass the loop test. *)
Lemma iterations_spec (i : nat) (q : Q) :
  lt_number i (Fin q) = true <-> i < iterations (Fin q).
Proof.
  unfold lt_number, iterations. split.
  - destruct (_ ?= _)%Q eqn:E; try discriminate. intros _.
    apply Qlt_alt in E.
    assert (inject_Z (Z.of_nat i) < inject_Z (Qceiling q))%Q as H.
    { eapply Qlt_le_trans; [exact E | apply Qle_ceiling]. }
    rewrite <- Zlt_Qlt in H. lia.
  - intros Hi.
    assert (inject_Z (Z.of_nat i) < q)%Q as H.
    { eapply Qle_lt_trans; [|apply Qceiling_lt].
      rewrite <- Zle_Qle. lia. }
    destruct (_ ?= _)%Q eqn:E; [|done|]; exfalso.
    + apply Qeq_alt in E. rewrite E in H. by apply Qlt_irrefl in H.
    + apply Qgt_alt in E. apply (Qlt_irrefl q). by eapply Qlt_trans.
Qed.

(** *** createBuffer *)

Lemma Qleb_le (x y : Q) : (x <= y)%Q -> Qleb x y = true.
Proof.
  intros H. unfold Qleb.
  pose proof (proj1 (Qle_alt x y) H) as H'.
  destruct (x ?= y)%Q eqn:E; [done|done|by destruct H'].
Qed.

Lemma createBuffer_accepts (ctx : AudioContext) (numChannels frames : nat)
    (rate q : Q) :
  accepts ctx numChannels frames rate ->
  (0 <= q)%Q -> Qfloor q = Z.of_nat frames ->
  createBuffer ctx numChannels (Fin q) rate
  = Ok {| sampleRate := rate;
          length := frames;
          channels := replicate numChannels (replicate frames (Fin 0%Q)) |}.
Proof.
  intros (Hc1 & Hc2 & Hc3 & Hf1 & Hf2 & Hr1 & Hr2) Hq Hfloor.
  unfold createBuffer.
  rewrite (to_unsigned_long_nonneg q) by (done || lia).
  rewrite to_unsigned_long_nonneg.
  2:{ change 0%Q with (inject_Z 0). rewrite <- Zle_Qle. lia. }
  2:{ rewrite Qfloor_Z. lia. }
  rewrite Qfloor_Z, Hfloor, !Qleb_le by done.
  destruct (Z.eqb_spec (Z.of_nat numChannels) 0) as [E|_]; [lia|].
  destruct (Z.ltb_spec (maxNumberOfChannels ctx) (Z.of_nat numChannels))
    as [E|_]; [lia|].
  destruct (Z.eqb_spec (Z.of_nat frames) 0) as [E|_]; [lia|].
  cbn. by rewrite !Nat2Z.id.
Qed.

(** *** The two loops of [decodeAudioData] *)

Lemma fold_channels {X} (F : X -> list (list number) -> list (list number))
    (xs : list X) (b : AudioBuffer) :
  fold_left (fun b x => {| sampleRate := sampleRate b;
                           length := length b;
                           channels := F x (channels b) |}) xs b
  = {| sampleRate := sampleRate b;
       length := length b;
       channels := fold_left (fun chs x => F x chs) xs (channels b) |}.
Proof.
  revert b. induction xs as [|x xs IH]; intros b; [by destruct b|].
  cbn [fold_left]. by rewrite IH.
Qed.

(** With at least as many rounds as a channel has frames, the loops write
    every frame of every channel. *)
Lemma loops_fill (v : nat -> nat -> number) (rate : Q)
    (numChannels frames rounds : nat) :
  frames <= rounds ->
  fold_left
    (fun buffer channel =>
       fold_left (fun buffer i => set_sample channel i (v channel i) buffer)
                 (seq 0 rounds) buffer)
    (seq 0 numChannels)
    {| sampleRate := rate;
       length := frames;
       channels := replicate numChannels (replicate frames (Fin 0%Q)) |}
  = {| sampleRate := rate;
       length := frames;
       channels := map (fun c => map (v c) (seq 0 frames)) (seq 0 numChannels) |}.
Proof.
  intros Hrounds.
  erewrite fold_left_ext.
  2:{ intros b c. unfold set_sample.
      rewrite (fold_channels (fun i => alter (fun ch => <[i := v c i]> ch) c)).
      rewrite (alter_loop_same (fun i ch => <[i := v c i]> ch)).
      reflexivity. }
  rewrite (fold_channels
             (fun c => alter (fun ch => fold_left (fun ch i => <[i := v c i]> ch)
                                                  (seq 0 rounds) ch) c)).
  cbn [sampleRate length channels]. f_equal.
  rewrite (alter_loop_each
             (fun c ch => fold_left (fun ch i => <[i := v c i]> ch)
                                    (seq 0 rounds) ch))
    by (by rewrite length_replicate).
  rewrite take_ge, drop_ge, app_nil_r by (by rewrite length_replicate).
  rewrite imap_replicate. apply map_ext. intros c.
  rewrite insert_loop_all by (by rewrite length_replicate).
  by rewrite length_replicate.
Qed.

(** The bound of the inner loop is finite whenever [createBuffer] has
    returned a buffer. *)
Lemma frameCount_finite (ctx : AudioContext) (numChannels n : nat) (rate : Q) :
  returns (createBuffer ctx numChannels (div_nat n numChannels) rate) ->
  exists q, div_nat n numChannels = Fin q.
Proof.
  intros [b Hb]. destruct numChannels as [|c]; [|by eexists].
  exfalso. unfold createBuffer in Hb.
  destruct n; cbn in Hb; discriminate.
Qed.

(** On a buffer of whole 16-bit samples that the context takes,
    [decodeAudioData] returns the de-interleaved buffer. *)
Lemma decodeAudioData_ok (data : list byte) (ctx : AudioContext) (rate : Q)
    (numChannels : nat) :
  Nat.even (List.length data) = true ->
  accepts ctx numChannels (total_samples data / numChannels) rate ->
  decodeAudioData data ctx rate numChannels
  = Ok (deinterleaved data rate numChannels
                      (total_samples data / numChannels)).
Proof.
  intros Heven Hacc. unfold decodeAudioData, new_Int16Array.
  rewrite Heven. cbn [mbind result_bind].
  rewrite int16_view_length.
  destruct (div_nat_pos (total_samples data) numChannels)
    as (q & Hq & Hq0 & Hfloor); [apply Hacc|].
  rewrite Hq.
  rewrite (createBuffer_accepts _ _ _ _ _ Hacc Hq0 Hfloor).
  cbn [mbind result_bind]. f_equal.
  apply (loops_fill
           (fun c i => div_32768 (int16_view data !! (i * numChannels + c)))).
  pose proof (iterations_floor q) as H. rewrite Hfloor, Nat2Z.id in H. exact H.
Qed.

(** *** Reading the decoded buffer *)

Lemma deinterleaved_sample (data : list byte) (rate : Q)
    (numChannels frames c i : nat) :
  sample (deinterleaved data rate numChannels frames) c i
  = if decide (c < numChannels /\ i < frames)
    then Some (div_32768 (int16At data (i * numChannels + c)))
    else None.
Proof.
  unfold sample, deinterleaved. cbn [channels].
  rewrite list_lookup_fmap.
  destruct (decide (c < numChannels)) as [Hc|Hc].
  - rewrite lookup_seq_lt by done. cbn.
    rewrite list_lookup_fmap.
    destruct (decide (i < frames)) as [Hi|Hi].
    + rewrite lookup_seq_lt by done. cbn.
      rewrite int16_view_lookup. by rewrite decide_True.
    + rewrite lookup_seq_ge by lia. cbn. rewrite decide_False; [done|lia].
  - rewrite lookup_seq_ge by lia. cbn. rewrite decide_False; [done|lia].
Qed.

(** A sample of a whole frame lies inside the buffer. *)
Lemma frame_sample_in_range (data : list byte) (numChannels c i : nat) :
  c < numChannels -> i < total_samples data / numChannels ->
  i * numChannels + c < numChannels * (total_samples data / numChannels)
  /\ exists z, int16At data (i * numChannels + c) = Some z.
Proof.
  intros Hc Hi.
  assert (i * numChannels + c
          < numChannels * (total_samples data / numChannels)) as Hlt by nia.
  split; [exact Hlt|].
  rewrite <- int16_view_lookup. apply lookup_lt_is_Some_2.
  rewrite int16_view_length.
  pose proof (Nat.Div0.mul_div_le (total_samples data) numChannels). lia.
Qed.

Lemma odd_length_throws (data : list byte) (ctx : AudioContext) (rate : Q)
    (numChannels : nat) :
  Nat.even (List.length data) = false ->
  decodeAudioData data ctx rate numChannels = Throw RangeError.
Proof.
  intros H. unfold decodeAudioData, new_Int16Array. by rewrite H.
Qed.




Example decode_two_channels :
  decodeAudioData [x01; x00; xff; xff; x00; x80; xff; x7f] base_context 24000%Q 2
  = Ok {| sampleRate := 24000%Q;
          length := 2;
          channels := [[Fin (1 # 32768); Fin (-32768 # 32768)];
                       [Fin (-1 # 32768); Fin (32767 # 32768)]] |}.
Proof. reflexivity. Qed.

(** C1, as the code has it: take a buffer whose byte length is not a
    multiple of 2*C.  If the length is odd, the 16-bit view raises
    RangeError.  If it is even and the audio context takes the shape,
    [decodeAudioData] returns, without an exception, exactly floor(N/C)
    frames per channel; every stored sample comes from one of the first
    C*floor(N/C) samples, so the trailing partial frame is dropped. *)
Theorem decodeAudioData_truncates (data : list byte) (ctx : AudioContext)
    (rate : Q) (numChannels : nat) :
  List.length data mod (2 * numChannels) <> 0 ->
  (Nat.even (List.length data) = false ->
   decodeAudioData data ctx rate numChannels = Throw RangeError)
  /\ (Nat.even (List.length data) = true ->
      accepts ctx numChannels (total_samples data / numChannels) rate ->
      exists buffer,
        decodeAudioData data ctx rate numChannels = Ok buffer
        /\ length buffer = total_samples data / numChannels
        /\ numberOfChannels buffer = numChannels
        /\ Forall (fun channelData =>
                     List.length channelData
                     = total_samples data / numChannels)
                  (channels buffer)
        /\ (forall c i v,
              sample buffer c i = Some v ->
              i * numChannels + c
              < numChannels * (total_samples data / numChannels)
              /\ v = div_32768 (int16At data (i * numChannels + c)))
        /\ numChannels * (total_samples data / numChannels)
           < total_samples data).
Proof.
  intros Hmod. split; [apply odd_length_throws|].
  intros Heven Hacc. eexists. split; [by apply decodeAudioData_ok|].
  split; [done|]. split.
  { unfold numberOfChannels. cbn. by rewrite length_map, length_seq. }
  split.
  { cbn. apply Forall_fmap, Forall_forall. intros c _. cbn.
    by rewrite length_map, length_seq. }
  split.
  { intros c i v. rewrite deinterleaved_sample.
    case_decide as H; [|discriminate]. destruct H as [Hc Hi].
    intros [= <-]. split; [|done].
    apply (frame_sample_in_range data numChannels c i Hc Hi). }
  destruct Hacc as (Hc & _).
  apply Nat.even_spec in Heven as [h Hh].
  unfold total_samples. rewrite Hh in Hmod |- *.
  replace (2 * h / 2) with h
    by (symmetry; rewrite Nat.mul_comm; by apply Nat.div_mul).
  rewrite Nat.Div0.mul_mod_distr_l in Hmod.
  pose proof (Nat.div_mod_eq h numChannels). lia.
Qed.

Lemma decodeAudioData_truncates_witness :
  let data := [x01; x00; xff; xff; x00; x80; xff; x7f; x05; x00] in
  List.length data mod (2 * 2) <> 0
  /\ Nat.even (List.length data) = true
  /\ accepts base_context 2 (total_samples data / 2) 24000%Q
  /\ exists buffer,
       decodeAudioData data base_context 24000%Q 2 = Ok buffer
       /\ length buffer = total_samples data / 2
       /\ numberOfChannels buffer = 2
       /\ Forall (fun channelData =>
                    List.length channelData = total_samples data / 2)
                 (channels buffer)
       /\ (forall c i v,
             sample buffer c i = Some v ->
             i * 2 + c < 2 * (total_samples data / 2)
             /\ v = div_32768 (int16At data (i * 2 + c)))
       /\ 2 * (total_samples data / 2) < total_samples data.
Proof.
  assert (accepts base_context 2 2 24000%Q) as Hacc.
  { unfold accepts. cbn. repeat split; (lia || discriminate). }
  split; [cbn; lia|]. split; [reflexivity|]. split; [exact Hacc|].
  apply (decodeAudioData_truncates
           [x01; x00; xff; xff; x00; x80; xff; x7f; x05; x00]
           base_context 24000%Q 2); [cbn; lia | reflexivity | exact Hacc].
Defined.

Example odd_length_rejected :
  decodeAudioData [x01; x00; xff; xff; x05] base_context 24000%Q 2
  = Throw RangeError.
Proof. by apply odd_length_throws. Qed.

Example decode_drops_partial_frame :
  decodeAudioData [x01; x00; xff; xff; x00; x80; xff; x7f; x05; x00]
                  base_context 24000%Q 2
  = Ok {| sampleRate := 24000%Q;
          length := 2;
          channels := [[Fin (1 # 32768); Fin (-32768 # 32768)];
                       [Fin (-1 # 32768); Fin (32767 # 32768)]] |}.
Proof. reflexivity. Qed.

(** A buffer with less than one frame is refused by [createBuffer]. *)
Example decode_short_buffer :
  decodeAudioData [x01; x00] base_context 24000%Q 2 = Throw NotSupportedError.
Proof. reflexivity. Qed.

(** C1 fails as stated: three bytes are not a multiple of 2*1, and the
    16-bit view of a buffer of odd length raises RangeError. *)
Lemma decodeAudioData_odd_length_counterexample :
  let data := [x01; x00; xff] in
  List.length data mod (2 * 1) <> 0
  /\ decodeAudioData data base_context 24000%Q 1 = Throw RangeError
  /\ ~ returns (decodeAudioData data base_context 24000%Q 1).
Proof.
  cbn zeta. split; [cbn; lia|]. split; [reflexivity|].
  intros [b Hb]. discriminate Hb.
Qed.

(** *** More on [decodeAudioData] *)

Lemma int16_of_bytes_range (lo hi : byte) :
  (-32768 <= int16_of_bytes lo hi < 32768)%Z.
Proof.
  unfold int16_of_bytes.
  pose proof (CodecFacts.byte_val_octet lo) as Hlo.
  pose proof (CodecFacts.byte_val_octet hi) as Hhi.
  unfold Codec.octet in *. cbv zeta.
  destruct (Z.ltb_spec (Codec.byte_val lo + 256 * Codec.byte_val hi) 32768);
    lia.
Qed.

Lemma int16At_range (data : list byte) (k : nat) (z : Z) :
  int16At data k = Some z -> (-32768 <= z < 32768)%Z.
Proof.
  unfold int16At.
  destruct (data !! (2 * k)) as [lo|]; [|discriminate].
  destruct (data !! (2 * k + 1)) as [hi|]; [|discriminate].
  intros [= <-]. rewrite <- int16_of_bytes_wrap. apply int16_of_bytes_range.
Qed.

Lemma div_32768_range (z : Z) :
  (-32768 <= z < 32768)%Z ->
  (-1 <= inject_Z z / 32768)%Q /\ (inject_Z z / 32768 < 1)%Q.
Proof. intros Hz. unfold Qle, Qlt. cbn. lia. Qed.

(** X4: every sample of a decoded buffer is a number from -1 up to, but not
    including, 1: nothing needs clipping, and no sample is NaN. *)
Theorem decoded_samples_in_range (data : list byte) (ctx : AudioContext)
    (rate : Q) (numChannels : nat) :
  Nat.even (List.length data) = true ->
  accepts ctx numChannels (total_samples data / numChannels) rate ->
  exists buffer,
    decodeAudioData data ctx rate numChannels = Ok buffer
    /\ forall c i v,
         sample buffer c i = Some v ->
         exists q, v = Fin q /\ (-1 <= q)%Q /\ (q < 1)%Q.
Proof.
  intros Heven Hacc. eexists. split; [by apply decodeAudioData_ok|].
  intros c i v. rewrite deinterleaved_sample.
  case_decide as H; [|discriminate]. destruct H as [Hc Hi].
  destruct (frame_sample_in_range data numChannels c i Hc Hi) as (_ & z & Hz).
  rewrite Hz. intros [= <-]. eexists. split; [reflexivity|].
  apply div_32768_range. by eapply int16At_range.
Qed.

Lemma decoded_samples_in_range_witness :
  let data := [x00; x80; xff; x7f; x00; x00; x01; x00] in
  Nat.even (List.length data) = true
  /\ accepts base_context 2 (total_samples data / 2) 24000%Q
  /\ exists buffer,
       decodeAudioData data base_context 24000%Q 2 = Ok buffer
       /\ forall c i v,
            sample buffer c i = Some v ->
            exists q, v = Fin q /\ (-1 <= q)%Q /\ (q < 1)%Q.
Proof.
  assert (accepts base_context 2 2 24000%Q) as Hacc.
  { unfold accepts. cbn. repeat split; (lia || discriminate). }
  split; [reflexivity|]. split; [exact Hacc|].
  apply decoded_samples_in_range; [reflexivity | exact Hacc].
Defined.

(** X5: a buffer of whole samples that holds no complete frame, or a channel
    count of zero, is refused with NotSupportedError by every audio
    context: [decodeAudioData] never returns a buffer of zero frames. *)
Theorem decode_without_frame (data : list byte) (ctx : AudioContext)
    (rate : Q) (numChannels : nat) :
  Nat.even (List.length data) = true ->
  numChannels = 0 \/ total_samples data < numChannels ->
  decodeAudioData data ctx rate numChannels = Throw NotSupportedError.
Proof.
  intros Heven Hshort. unfold decodeAudioData, new_Int16Array.
  rewrite Heven. cbn [mbind result_bind]. rewrite int16_view_length.
  destruct numChannels as [|c].
  - by destruct (total_samples data).
  - destruct Hshort as [|Hlt]; [done|].
    destruct (div_nat_pos (total_samples data) (S c))
      as (q & Hq & Hq0 & Hfloor); [lia|].
    rewrite Hq. rewrite Nat.div_small in Hfloor by done.
    unfold createBuffer.
    rewrite (to_unsigned_long_nonneg q) by (done || rewrite Hfloor; lia).
    rewrite Hfloor. change (Z.of_nat 0 =? 0)%Z with true.
    by rewrite orb_true_r.
Qed.

Lemma decode_without_frame_witness :
  Nat.even (List.length [x01; x00; x02; x00]) = true
  /\ total_samples [x01; x00; x02; x00] < 3
  /\ decodeAudioData [x01; x00; x02; x00] base_context 24000%Q 3
     = Throw NotSupportedError.
Proof.
  split; [reflexivity|]. split; [cbn; lia|].
  apply decode_without_frame; [reflexivity | right; cbn; lia].
Defined.

End PCMFacts.

(** ** The JSON parser *)

Module JsonFacts.
Import Json.
Local Open Scope Z_scope.

Lemma unescape_plain (s : jsstring) : Forall plain s -> unescape s = Some s.
Proof.
  induction 1 as [|c s (_ & _ & Hc) _ IH]; [done|].
  cbn [unescape]. destruct (Z.eqb_spec c 92) as [E|_]; [done|].
  by rewrite IH.
Qed.

(** Inside a string, plain characters are gathered up to the closing
    quote. *)
Lemma tokens_in_string (raw s rest : jsstring) :
  Forall plain s ->
  tokens (InString raw false) (s ++ 34 :: rest)
  = (str ← unescape (raw ++ s);
     r ← tokens Between rest;
     Some (TString str :: r)).
Proof.
  intros Hs. revert raw.
  induction Hs as [|c s (Hc1 & Hc2 & Hc3) _ IH]; intros raw.
  - cbn. by rewrite app_nil_r.
  - cbn [app tokens].
    destruct (Z.eqb_spec c 34) as [E|_]; [done|].
    destruct (Z.eqb_spec c 92) as [E|_]; [done|].
    destruct (Z.ltb_spec c 32) as [E|_]; [lia|].
    rewrite IH. by rewrite <- app_assoc.
Qed.

Lemma tokens_print_string (s rest : jsstring) :
  Forall plain s ->
  tokens Between (print_string s ++ rest)
  = (r ← tokens Between rest; Some (TString s :: r)).
Proof.
  intros Hs. unfold print_string. rewrite <- !app_assoc. cbn [app].
  change (tokens Between (34 :: s ++ 34 :: rest))
    with (r ← tokens (InString [] false) (s ++ 34 :: rest); Some ([] ++ r)).
  rewrite tokens_in_string by done. cbn [app].
  rewrite unescape_plain by done. cbn.
  by destruct (tokens Between rest).
Qed.

(** A punctuation character is a token of its own. *)
Lemma tokens_punctuation (c : Z) (t : token) (rest : jsstring) :
  is_ws c = false -> punctuation c = Some t ->
  tokens Between (c :: rest) = (r ← tokens Between rest; Some (t :: r)).
Proof.
  intros Hws Hp. cbn [tokens]. unfold between. rewrite Hws, Hp. cbn.
  by destruct (tokens Between rest).
Qed.

(** *** Numbers *)

(** A number is read as the nearest binary64 value: an integer beyond 2^53
    loses its last bit, a tie goes to the even significand, a decimal
    fraction is rounded, the sign of zero is kept, and what is too large is
    an infinity. *)
Example numbers_are_rounded :
  parse (js "[9007199254740993, 9007199254740995, 0.1, -0, 1e400, 5e-325]")
  = Ok (JArray [JNumber (Num 9007199254740992);
                JNumber (Num 9007199254740996);
                JNumber (Num (3602879701896397 # 36028797018963968));
                JNumber MinusZero;
                JNumber (Infinite false);
                JNumber (Num 0)]).
Proof. vm_compute. reflexivity. Qed.

Example numbers_are_read :
  parse (js "[0, 7, -12.5e-1, 0.5, 1E2]")
  = Ok (JArray [JNumber (Num 0); JNumber (Num 7); JNumber (Num (-5 # 4));
                JNumber (Num (1 # 2)); JNumber (Num 100)]).
Proof. vm_compute. reflexivity. Qed.

Example not_numbers :
  parse (js "01") = Throw SyntaxError /\ parse (js "1.") = Throw SyntaxError
  /\ parse (js "+1") = Throw SyntaxError /\ parse (js ".5") = Throw SyntaxError.
Proof. repeat split. Qed.

Lemma round_half_even_exact (n : Z) : round_half_even n 1 = n.
Proof.
  unfold round_half_even. rewrite Z.mod_1_r, Z.div_1_r. reflexivity.
Qed.

Lemma log2_ratio_integer (n : Z) : 0 < n -> log2_ratio n 1 = Z.log2 n.
Proof.
  intros Hn. unfold log2_ratio. change (Z.log2 1) with 0.
  rewrite Z.sub_0_r. pose proof (Z.log2_nonneg n) as H0.
  destruct (Z.leb_spec 0 (Z.log2 n)) as [_|]; [|lia].
  destruct (Z.log2_spec n Hn) as [Hlo _].
  destruct (Z.leb_spec (1 * 2 ^ Z.log2 n) n); [reflexivity | lia].
Qed.

Lemma Qred_scaled (n k : Z) :
  0 < k -> Qred (Qmake (n * k) (Z.to_pos k)) = inject_Z n.
Proof.
  intros Hk.
  rewrite (Qred_complete (Qmake (n * k) (Z.to_pos k)) (inject_Z n)).
  - apply Qred_identity. cbn. apply Z.gcd_1_r.
  - unfold Qeq, inject_Z. cbn. rewrite Z2Pos.id by lia. lia.
Qed.

(** An integer below 2^53 is read as it is written. *)
Lemma to_double_integer (n : Z) :
  0 < n < 2 ^ 53 -> to_double false n 1 = Num (inject_Z n).
Proof.
  intros [Hn Hlt]. unfold to_double.
  destruct (Z.eqb_spec n 0) as [->|_]; [lia|].
  rewrite (log2_ratio_integer n Hn).
  assert (Z.log2 n < 53) as Hlog by (apply Z.log2_lt_pow2; lia).
  pose proof (Z.log2_nonneg n) as H0.
  set (p := Z.max (Z.log2 n - 52) (-1074)).
  assert (-1074 <= p <= 0) as Hp by (unfold p; lia).
  destruct (Z.leb_spec 0 p) as [Hp0|Hp0].
  - assert (p = 0) as -> by lia.
    change (2 ^ 0) with 1. rewrite !Z.mul_1_r, round_half_even_exact.
    destruct (Z.eqb_spec n 0) as [->|_]; [lia|].
    cbn [andb].
    destruct (Z.leb_spec (2 ^ 1024) n) as [Hbig|_]; [|reflexivity].
    exfalso. assert (2 ^ 53 < 2 ^ 1024) by (apply Z.pow_lt_mono_r; lia). lia.
  - rewrite round_half_even_exact.
    assert (0 < 2 ^ (- p)) as Hpow by (apply Z.pow_pos_nonneg; lia).
    destruct (Z.eqb_spec (n * 2 ^ (- p)) 0) as [E|_]; [nia|].
    cbn [andb]. by rewrite Qred_scaled.
Qed.

End JsonFacts.

(** ** The request builders and the response handling *)

Module GeminiFacts.
Import Gemini.
Local Open Scope Z_scope.

(** *** The data of a media part *)

Lemma split_nonempty (sep : Z) (s : jsstring) :
  exists piece pieces, split sep s = piece :: pieces.
Proof.
  destruct s as [|c r]; cbn; [by eauto|].
  destruct (c =? sep); [by eauto|].
  destruct (split sep r); by eauto.
Qed.

Lemma split_first (s : jsstring) :
  split comma s !! 0%nat = Some (up_to_comma s).
Proof.
  induction s as [|c r IH]; [done|].
  cbn [split up_to_comma]. destruct (c =? comma); [done|].
  destruct (split comma r) as [|piece pieces]; [done|].
  cbn in IH |- *. by injection IH as ->.
Qed.

(** [s.split(',')[1]] is what lies between the first comma of [s] and the
    next one, or the end; undefined when [s] has no comma. *)
Lemma split_second (s : jsstring) :
  split comma s !! 1%nat = up_to_comma <$> after_first_comma s.
Proof.
  induction s as [|c r IH]; [done|].
  cbn [split after_first_comma]. destruct (c =? comma).
  - cbn. apply split_first.
  - destruct (split_nonempty comma r) as (piece & pieces & E).
    rewrite E in IH |- *. exact IH.
Qed.

Lemma up_to_comma_all (s : jsstring) : comma ∉ s -> up_to_comma s = s.
Proof.
  induction s as [|c r IH]; [done|]. intros H.
  apply not_elem_of_cons in H as [Hc Hr]. cbn.
  destruct (Z.eqb_spec c comma) as [E|_]; [congruence|].
  by rewrite IH.
Qed.

Lemma after_first_comma_none (s : jsstring) :
  comma ∉ s -> after_first_comma s = None.
Proof.
  induction s as [|c r IH]; [done|]. intros H.
  apply not_elem_of_cons in H as [Hc Hr]. cbn.
  destruct (Z.eqb_spec c comma) as [E|_]; [congruence|]. by apply IH.
Qed.

(** C10, as the code has it: in every request that carries media, built by
    [generateStoryFromMedia], [generateStorySuggestions] or
    [chatWithStoryAssistant], the inline data is the part of the media
    string between its first comma and its next comma, or the end of the
    string: all that follows the first comma when no further comma follows,
    and undefined when the string has no comma. *)
Theorem media_data_after_first_comma (base64Data mimeType : jsstring) :
  let data := up_to_comma <$> after_first_comma base64Data in
  (forall language,
     request_media (generateStoryFromMedia_request base64Data mimeType language)
     = [InlineData mimeType data])
  /\ (forall paragraph language,
        truthy base64Data = true -> truthy mimeType = true ->
        request_media (generateStorySuggestions_request
                         (Some base64Data) (Some mimeType) paragraph language)
        = [InlineData mimeType data])
  /\ (forall σ history message,
        truthy base64Data = true -> truthy mimeType = true ->
        snd (chat_contents σ history message (Some base64Data) (Some mimeType))
          !! fst (chat_contents σ history message (Some base64Data) (Some mimeType))
        = Some (default [] (σ !! history)
                ++ [{| role := Some (js "user");
                       parts := [InlineData mimeType data; TextPart message] |}]))
  /\ (comma ∉ base64Data -> data = None)
  /\ (forall rest,
        after_first_comma base64Data = Some rest -> comma ∉ rest ->
        data = Some rest).
Proof.
  cbn zeta. split; [|split; [|split; [|split]]].
  - intros language. unfold request_media, generateStoryFromMedia_request.
    cbn. unfold mediaPart. by rewrite split_second.
  - intros paragraph language Hb Hm.
    unfold request_media, generateStorySuggestions_request, both_present.
    rewrite Hb, Hm. cbn. unfold mediaPart. by rewrite split_second.
  - intros σ history message Hb Hm.
    unfold chat_contents, both_present. rewrite Hb, Hm. cbn.
    rewrite lookup_alter_eq, lookup_insert_eq. cbn.
    unfold mediaPart. by rewrite split_second.
  - intros H. by rewrite after_first_comma_none.
  - intros rest -> H. cbn. by rewrite up_to_comma_all.
Qed.

Lemma media_data_after_first_comma_witness :
  let base64Data := js "data:image/png;base64,iVBORw0KGgo=" in
  let mimeType := js "image/png" in
  let data := up_to_comma <$> after_first_comma base64Data in
  data = Some (js "iVBORw0KGgo=")
  /\ (forall paragraph language,
        request_media (generateStorySuggestions_request
                         (Some base64Data) (Some mimeType) paragraph language)
        = [InlineData mimeType data]).
Proof.
  cbn zeta. split; [reflexivity|].
  intros paragraph language.
  apply (media_data_after_first_comma
           (js "data:image/png;base64,iVBORw0KGgo=") (js "image/png"));
    reflexivity.
Defined.

(** C10 fails as stated: with two commas in the media string, the data is
    not all that follows the first comma. *)
Lemma media_data_two_commas_counterexample :
  let base64Data := js "a,b,c" in
  request_media
    (generateStoryFromMedia_request base64Data (js "image/png") (js "English"))
  = [InlineData (js "image/png") (Some (js "b"))]
  /\ after_first_comma base64Data = Some (js "b,c")
  /\ Some (js "b") <> after_first_comma base64Data.
Proof. cbn zeta. split; [reflexivity|]. split; [reflexivity|]. discriminate. Qed.

(** *** Suggestions written as JSON are read back in order *)

Ltac plain_chars :=
  cbn; repeat first [apply Forall_nil_2 | apply Forall_cons_2];
  unfold Json.plain; lia.

Lemma plain_type : Forall Json.plain (js "type").
Proof. plain_chars. Qed.

Lemma plain_text : Forall Json.plain (js "text").
Proof. plain_chars. Qed.

Lemma plain_name (t : SuggestionType) :
  Forall Json.plain (suggestion_type_name t).
Proof. destruct t; plain_chars. Qed.

Lemma tokens_print_suggestion (s : StorySuggestion) (rest : jsstring) :
  Forall Json.plain (suggestion_text s) ->
  Json.tokens Json.Between (print_suggestion s ++ rest)
  = (r ← Json.tokens Json.Between rest; Some (suggestion_tokens s ++ r)).
Proof.
  intros Hs. unfold print_suggestion. rewrite <- !app_assoc.
  change (js "{") with [123]. change (js ":") with [58].
  change (js ",") with [44]. change (js "}") with [125]. cbn [app].
  rewrite (JsonFacts.tokens_punctuation 123 Json.TLBrace) by done.
  rewrite JsonFacts.tokens_print_string by apply plain_type.
  rewrite (JsonFacts.tokens_punctuation 58 Json.TColon) by done.
  rewrite JsonFacts.tokens_print_string by apply plain_name.
  rewrite (JsonFacts.tokens_punctuation 44 Json.TComma) by done.
  rewrite JsonFacts.tokens_print_string by apply plain_text.
  rewrite (JsonFacts.tokens_punctuation 58 Json.TColon) by done.
  rewrite JsonFacts.tokens_print_string by done.
  rewrite (JsonFacts.tokens_punctuation 125 Json.TRBrace) by done.
  by destruct (Json.tokens Json.Between rest).
Qed.

Lemma tokens_print_elements (l : list StorySuggestion) (rest : jsstring) :
  plain_texts l ->
  Json.tokens Json.Between (print_elements l ++ rest)
  = (r ← Json.tokens Json.Between rest; Some (elements_tokens l ++ r)).
Proof.
  induction 1 as [|s l Hs Hl IH].
  - cbn. by destruct (Json.tokens Json.Between rest).
  - destruct l as [|s' l'].
    + by apply tokens_print_suggestion.
    + change (print_elements (s :: s' :: l'))
        with (print_suggestion s ++ js "," ++ print_elements (s' :: l')).
      change (elements_tokens (s :: s' :: l'))
        with (suggestion_tokens s ++ [Json.TComma] ++ elements_tokens (s' :: l')).
      rewrite <- !app_assoc. rewrite tokens_print_suggestion by done.
      change (js ",") with [44]. cbn [app].
      rewrite (JsonFacts.tokens_punctuation 44 Json.TComma) by done.
      rewrite IH. by destruct (Json.tokens Json.Between rest).
Qed.

Lemma to_json_fields (s : StorySuggestion) :
  to_json s
  = Json.JObject
      (<[js "text" := Json.JString (suggestion_text s)]>
         (<[js "type" := Json.JString (suggestion_type_name (suggestion_type s))]>
            ∅)).
Proof. unfold to_json. rewrite insert_insert_ne; done. Qed.

(** The tokens of one suggestion, met where an array takes a value, add
    the suggestion to the array. *)
Lemma run_suggestion (s : StorySuggestion) (ts : list Json.token)
    (elements : list Json.json) (stack : list Json.frame) (ph : Json.phase) :
  ph = Json.PValue \/ ph = Json.PValueOrClose ->
  Json.run (suggestion_tokens s ++ ts) (Json.FArray elements :: stack, ph)
  = Json.run ts (Json.FArray (elements ++ [to_json s]) :: stack, Json.PAfter).
Proof. intros [-> | ->]; by rewrite to_json_fields. Qed.

Lemma run_elements (s : StorySuggestion) (l : list StorySuggestion)
    (elements : list Json.json) (ph : Json.phase) :
  ph = Json.PValue \/ ph = Json.PValueOrClose ->
  Json.run (elements_tokens (s :: l) ++ [Json.TRBracket])
           ([Json.FArray elements], ph)
  = Some (Json.JArray (elements ++ map to_json (s :: l))).
Proof.
  revert s elements ph. induction l as [|s' l IH]; intros s elements ph Hph.
  - cbn [elements_tokens]. by rewrite run_suggestion.
  - change (elements_tokens (s :: s' :: l))
      with (suggestion_tokens s ++ [Json.TComma] ++ elements_tokens (s' :: l)).
    rewrite <- !app_assoc, run_suggestion by done. cbn [app Json.run].
    cbn [Json.step mbind option_bind].
    rewrite IH by auto. cbn [map]. by rewrite <- app_assoc.
Qed.

(** A sequence of suggestions written as a JSON array is parsed to the
    same suggestions in the same order. *)
Lemma parse_print_suggestions (l : list StorySuggestion) :
  plain_texts l ->
  Json.parse (print_suggestions l) = Ok (Json.JArray (map to_json l)).
Proof.
  intros Hl. unfold Json.parse, print_suggestions.
  change (js "[") with [91]. change (js "]") with [93]. cbn [app].
  rewrite (JsonFacts.tokens_punctuation 91 Json.TLBracket) by done.
  rewrite tokens_print_elements by done.
  cbn [Json.tokens Json.between Json.is_ws Json.punctuation].
  cbn -[elements_tokens Json.run].
  change (Json.run (Json.TLBracket :: ?ts) ([], Json.PValue))
    with (Json.run ts ([Json.FArray []], Json.PValueOrClose)).
  destruct l as [|s l]; [done|].
  by rewrite (run_elements s l [] Json.PValueOrClose) by auto.
Qed.

(** *** The suggestion request and its response *)

Example parse_three_suggestions :
  parse_suggestions {| text := Some three_suggestions; audio := None |}
  = Json.JArray
      [to_json {| suggestion_type := plot;
                  suggestion_text := js "A storm breaks." |};
       to_json {| suggestion_type := character;
                  suggestion_text := js "Mara hides a map." |};
       to_json {| suggestion_type := setting;
                  suggestion_text := js "The harbour at dusk." |}].
Proof. vm_compute. reflexivity. Qed.

Example parse_invalid_json :
  parse_suggestions {| text := Some (js "[{oops"); audio := None |}
  = Json.JArray [].
Proof. reflexivity. Qed.

Example parse_no_text :
  parse_suggestions {| text := None; audio := None |} = Json.JArray [].
Proof. reflexivity. Qed.

(** C4, as the code has it: the end of [generateStorySuggestions] returns
    the parsed value whenever the response text is valid JSON, so the
    suggestions in their order for a JSON array of objects with both
    fields, and the empty sequence, with no error passed on, when the text
    is not valid JSON or is missing or empty.  Valid JSON of another shape
    is returned as parsed. *)
Theorem parse_suggestions_fallback (response : Response) :
  let raw := or_else (text response) (js "[]") in
  (forall v, Json.parse raw = Ok v -> parse_suggestions response = v)
  /\ (forall e, Json.parse raw = Throw e ->
                parse_suggestions response = Json.JArray [])
  /\ (text response = None \/ text response = Some [] ->
      parse_suggestions response = Json.JArray [])
  /\ (forall generateContent base64Data mimeType paragraph language,
        generateContent (generateStorySuggestions_request
                           base64Data mimeType paragraph language)
        = Ok response ->
        generateStorySuggestions generateContent base64Data mimeType
                                 paragraph language
        = Ok (parse_suggestions response))
  /\ (forall l : list StorySuggestion,
        plain_texts l -> text response = Some (print_suggestions l) ->
        parse_suggestions response = Json.JArray (map to_json l)).
Proof.
  cbn zeta. unfold parse_suggestions. split; [|split; [|split; [|split]]].
  - by intros v ->.
  - by intros e ->.
  - by intros [-> | ->].
  - intros generateContent base64Data mimeType paragraph language H.
    unfold generateStorySuggestions. by rewrite H.
  - intros l Hl ->.
    change (or_else (Some (print_suggestions l)) (js "[]"))
      with (print_suggestions l).
    by rewrite parse_print_suggestions.
Qed.

Lemma parse_suggestions_fallback_witness :
  let response := {| text := Some (js "[{oops"); audio := None |} in
  Json.parse (or_else (text response) (js "[]")) = Throw SyntaxError
  /\ parse_suggestions response = Json.JArray [].
Proof.
  cbn zeta. split; [reflexivity|].
  apply (proj1 (proj2 (parse_suggestions_fallback
                         {| text := Some (js "[{oops"); audio := None |}))
               SyntaxError).
  reflexivity.
Defined.

(** C4 fails as stated: valid JSON that is not an array, or an array whose
    object lacks a field or has a field of the wrong type, comes back as
    parsed, not as the empty sequence. *)
Lemma parse_suggestions_no_validation_counterexample :
  let non_array :=
    js "{" ++ quoted "type" ++ js ":" ++ quoted "plot" ++ js "}" in
  let missing_field :=
    js "[{" ++ quoted "text" ++ js ":" ++ quoted "x" ++ js "}]" in
  let wrong_type :=
    js "[{" ++ quoted "type" ++ js ":7," ++ quoted "text" ++ js ":true}]" in
  parse_suggestions {| text := Some non_array; audio := None |}
  = Json.JObject {[ js "type" := Json.JString (js "plot") ]}
  /\ parse_suggestions {| text := Some missing_field; audio := None |}
     = Json.JArray [Json.JObject {[ js "text" := Json.JString (js "x") ]}]
  /\ parse_suggestions {| text := Some wrong_type; audio := None |}
     = Json.JArray
         [Json.JObject (<[js "type" := Json.JNumber (Json.Num 7)]>
                          {[ js "text" := Json.JBool true ]})]
  /\ parse_suggestions {| text := Some non_array; audio := None |}
     <> Json.JArray [].
Proof.
  cbn zeta. split; [vm_compute; reflexivity|].
  split; [vm_compute; reflexivity|]. split; [vm_compute; reflexivity|].
  vm_compute. discriminate.
Qed.

Lemma suggestion_type_name_cases (t : SuggestionType) :
  suggestion_type_name t ∈ [js "plot"; js "character"; js "setting"].
Proof. destruct t; cbn; set_solver. Qed.

(** C5, as the code has it: the suggestion request asks for JSON under a
    response schema, an ordered sequence of objects with the two required
    string fields "type" (the kind) and "text"; the schema names plot,
    character and setting only in the description of "type".  The parsed
    sequence is returned as the response holds it; a suggestion of the
    declared type [StorySuggestion] has both fields and a kind among plot,
    character and setting. *)
Theorem suggestions_request_schema
    (base64Data mimeType : option jsstring) (paragraph language : jsstring) :
  let r := generateStorySuggestions_request base64Data mimeType
                                            paragraph language in
  responseMimeType (config r) = Some (js "application/json")
  /\ responseSchema (config r)
     = Some (SArray
               (SObject
                  [(js "type",
                    SString (Some (js "Must be 'plot', 'character', or 'setting'")));
                   (js "text", SString None)]
                  [js "type"; js "text"]))
  /\ (forall s : StorySuggestion,
        has_required_fields (to_json s) = true
        /\ suggestion_type_name (suggestion_type s)
           ∈ [js "plot"; js "character"; js "setting"])
  /\ (forall response elements,
        Json.parse (or_else (text response) (js "[]"))
        = Ok (Json.JArray elements) ->
        parse_suggestions response = Json.JArray elements).
Proof.
  cbn zeta. split; [done|]. split; [done|]. split.
  - intros s. split; [|apply suggestion_type_name_cases].
    unfold has_required_fields, to_json.
    rewrite lookup_insert_eq, lookup_insert_ne by done.
    by rewrite lookup_insert_eq.
  - intros response elements H. unfold parse_suggestions. by rewrite H.
Qed.

Lemma suggestions_request_schema_witness :
  let response := {| text := Some three_suggestions; audio := None |} in
  exists elements,
    Json.parse (or_else (text response) (js "[]")) = Ok (Json.JArray elements)
    /\ parse_suggestions response = Json.JArray elements
    /\ length elements = 3%nat.
Proof.
  cbn zeta. eexists. split; [vm_compute; reflexivity|].
  split; [|reflexivity].
  apply (proj2 (proj2 (proj2 (suggestions_request_schema None None [] [])))).
  vm_compute. reflexivity.
Defined.

(** C5 fails as stated: a response that obeys the requested schema can
    carry a kind other than plot, character and setting, and it is
    returned. *)
Lemma suggestions_kind_counterexample :
  let raw :=
    js "[{" ++ quoted "type" ++ js ":" ++ quoted "mood" ++ js ","
            ++ quoted "text" ++ js ":" ++ quoted "x" ++ js "}]" in
  let obj :=
    Json.JObject (<[js "type" := Json.JString (js "mood")]>
                    {[ js "text" := Json.JString (js "x") ]}) in
  parse_suggestions {| text := Some raw; audio := None |} = Json.JArray [obj]
  /\ has_required_fields obj = true
  /\ forall s : StorySuggestion, obj <> to_json s.
Proof.
  cbn zeta. split; [vm_compute; reflexivity|]. split; [reflexivity|].
  intros s H. unfold to_json in H.
  apply (f_equal (fun v => match v with
                           | Json.JObject fields => fields !! js "type"
                           | _ => None
                           end)) in H.
  cbv beta iota in H. rewrite !lookup_insert_eq in H.
  destruct (suggestion_type s); discriminate.
Qed.

(** *** More on the requests and the service functions *)

Lemma split_no_comma (s : jsstring) :
  Forall (fun piece => comma ∉ piece) (split comma s).
Proof.
  induction s as [|c r IH]; cbn [split].
  - apply Forall_cons_2; [apply not_elem_of_nil | apply Forall_nil_2].
  - destruct (Z.eqb_spec c comma) as [E|E].
    + apply Forall_cons_2; [apply not_elem_of_nil | exact IH].
    + destruct (split comma r) as [|piece pieces]; [|].
      * apply Forall_cons_2; [|apply Forall_nil_2].
        apply not_elem_of_cons. split; [congruence | apply not_elem_of_nil].
      * apply Forall_cons in IH as [Hp Hps]. apply Forall_cons_2; [|done].
        apply not_elem_of_cons. split; [congruence | done].
Qed.

(** The pieces of [s.split(',')], joined with commas, are [s] again, and
    no piece holds a comma: the split loses nothing but the commas. *)
Theorem split_join (s : jsstring) :
  join comma (split comma s) = s
  /\ Forall (fun piece => comma ∉ piece) (split comma s).
Proof.
  split; [|apply split_no_comma].
  induction s as [|c r IH]; [done|].
  cbn [split]. destruct (Z.eqb_spec c comma) as [->|_].
  - destruct (split_nonempty comma r) as (piece & pieces & E).
    rewrite E in IH |- *.
    change (join comma ([] :: piece :: pieces))
      with ([] ++ comma :: join comma (piece :: pieces)).
    by rewrite IH.
  - destruct (split comma r) as [|piece [|piece' pieces]].
    + cbn in IH. by subst r.
    + cbn in IH |- *. by rewrite IH.
    + change (join comma ((c :: piece) :: piece' :: pieces))
        with (c :: (piece ++ comma :: join comma (piece' :: pieces))).
      change (join comma (piece :: piece' :: pieces))
        with (piece ++ comma :: join comma (piece' :: pieces)) in IH.
      by rewrite IH.
Qed.

Lemma or_else_truthy (t : option jsstring) (fallback : jsstring) :
  truthy fallback = true ->
  truthy (or_else t fallback) = true
  /\ (t = Some (or_else t fallback) \/ or_else t fallback = fallback).
Proof. intros Hf. destruct t as [[|c r]|]; cbn; auto. Qed.

(** X6: whatever the service answers, a paragraph or a chat reply that comes
    back is never empty: it is the text of the response, or the fixed
    fallback when that text is missing or empty. *)
Theorem replies_never_empty
    (generateContent : Request -> result Response) (s : jsstring) :
  (forall base64Data mimeType language,
     generateStoryFromMedia generateContent base64Data mimeType language
     = Ok s ->
     truthy s = true
     /\ exists response,
          generateContent
            (generateStoryFromMedia_request base64Data mimeType language)
          = Ok response
          /\ (text response = Some s \/ s = js "Failed to generate story."))
  /\ (forall σ history message base64Data mimeType,
        (chatWithStoryAssistant generateContent σ history message
                                base64Data mimeType).1 = Ok s ->
        truthy s = true
        /\ exists response,
             generateContent
               (chatWithStoryAssistant_request σ history message
                                               base64Data mimeType).1
             = Ok response
             /\ (text response = Some s
                 \/ s = js "I'm sorry, I couldn't process that.")).
Proof.
  split.
  - intros base64Data mimeType language. unfold generateStoryFromMedia.
    destruct (generateContent _) as [response|e]; [|discriminate].
    cbn. intros [= <-].
    destruct (or_else_truthy (text response) (js "Failed to generate story."))
      as [H1 H2]; [done|].
    split; [done|]. by exists response.
  - intros σ history message base64Data mimeType.
    unfold chatWithStoryAssistant.
    destruct (chatWithStoryAssistant_request _ _ _ _ _) as [request σ'].
    cbn [fst]. destruct (generateContent request) as [response|e];
      [|discriminate].
    cbn. intros [= <-].
    destruct (or_else_truthy (text response)
                             (js "I'm sorry, I couldn't process that."))
      as [H1 H2]; [done|].
    split; [done|]. by exists response.
Qed.

Lemma replies_never_empty_witness :
  let generateContent := fun _ : Request =>
    Ok {| text := Some []; audio := None |} in
  generateStoryFromMedia generateContent (js "data:,x") (js "image/png")
                         (js "English")
  = Ok (js "Failed to generate story.")
  /\ truthy (js "Failed to generate story.") = true.
Proof.
  cbn zeta. split; [reflexivity|].
  apply (proj1 (replies_never_empty
                  (fun _ => Ok {| text := Some []; audio := None |})
                  (js "Failed to generate story."))
               (js "data:,x") (js "image/png") (js "English")).
  reflexivity.
Defined.

(** X7: when the service answers a narration request with the base64 text of
    some bytes, [narrateText] returns those bytes; with the text of no
    bytes at all it throws "No audio data received". *)
Theorem narrateText_decodes
    (generateContent : Request -> result Response) (story : jsstring)
    (bytes : Codec.Uint8Array) (base64 : jsstring) (t : option jsstring) :
  Codec.encode bytes = Ok base64 ->
  generateContent (narrateText_request story)
  = Ok {| text := t; audio := Some base64 |} ->
  narrateText generateContent story
  = match bytes with
    | [] => Throw NoAudioData
    | _ :: _ => Ok bytes
    end.
Proof.
  intros Henc Hgc. unfold narrateText. rewrite Hgc. cbn [mbind result_bind audio].
  destruct bytes as [|b bytes].
  - cbn in Henc. by injection Henc as <-.
  - destruct (CodecFacts.encode_nonempty b bytes) as (c & r & E).
    rewrite E in Henc. injection Henc as <-.
    by apply CodecFacts.decode_of_encode.
Qed.

Lemma narrateText_decodes_witness :
  let generateContent := fun _ : Request =>
    Ok {| text := None; audio := Some (js "AAD/fw==") |} in
  Codec.encode [x00; x00; xff; x7f] = Ok (js "AAD/fw==")
  /\ narrateText generateContent (js "Once.") = Ok [x00; x00; xff; x7f].
Proof.
  cbn zeta. split; [reflexivity|].
  apply (narrateText_decodes
           (fun _ => Ok {| text := None; audio := Some (js "AAD/fw==") |})
           (js "Once.") [x00; x00; xff; x7f] (js "AAD/fw==") None);
    reflexivity.
Defined.

Lemma both_present_none (a b : option jsstring) :
  a = None \/ a = Some [] \/ b = None \/ b = Some [] ->
  both_present a b = None.
Proof.
  intros [-> | [-> | [-> | ->]]].
  - done.
  - by destruct b.
  - by destruct a.
  - by destruct a as [[|c r]|].
Qed.

(** X8: when the media string or the mime type is null or empty, neither the
    suggestion request nor the new turn of a chat request carries a media
    part, even if the other of the two is there: each holds its text part
    alone. *)
Theorem no_media_unless_both (base64Data mimeType : option jsstring) :
  base64Data = None \/ base64Data = Some []
  \/ mimeType = None \/ mimeType = Some [] ->
  (forall paragraph language,
     exists prompt,
       single_parts (generateStorySuggestions_request
                       base64Data mimeType paragraph language)
       = [TextPart prompt])
  /\ (forall σ history message,
        let r := chat_contents σ history message base64Data mimeType in
        r.2 !! r.1
        = Some (default [] (σ !! history)
                ++ [{| role := Some (js "user");
                       parts := [TextPart message] |}])).
Proof.
  intros H. apply both_present_none in H. split.
  - intros paragraph language. eexists.
    unfold single_parts, generateStorySuggestions_request.
    rewrite H. reflexivity.
  - intros σ history message. cbn zeta. unfold chat_contents.
    rewrite H. cbn [fst snd].
    by rewrite lookup_alter_eq, lookup_insert_eq.
Qed.

Lemma no_media_unless_both_witness :
  exists prompt,
    single_parts (generateStorySuggestions_request
                    (Some (js "data:image/png;base64,AAAA")) (Some [])
                    (js "Once.") (js "English"))
    = [TextPart prompt].
Proof.
  apply (proj1 (no_media_unless_both
                  (Some (js "data:image/png;base64,AAAA")) (Some [])
                  (or_intror (or_intror (or_intror eq_refl))))).
Defined.

End GeminiFacts.

(** ** The conversation *)

Module ChatBotFacts.
Import ChatBot.
Local Open Scope Z_scope.





(** The request that [handleSend] has [chatWithStoryAssistant] build comes
    from the messages of the render, not from the message just appended. *)
Lemma handleSend_history (σ : gmap nat (list Gemini.Content))
    (render : State) :
  let history := fresh (dom σ) in
  <[history := history_of (messages render)]> σ !! history
  = Some (history_of (messages render)).
Proof. cbn zeta. apply lookup_insert_eq. Qed.

(** *** The transcript *)

Lemma handleSend_runs (generateContent : Gemini.Request -> result Gemini.Response)
    (props : Props) (σ : gmap nat (list Gemini.Content)) (render : State) :
  truthy (trim (input render)) = true -> isLoading render = false ->
  exists h,
    handleSend generateContent props σ render = Some h
    /\ (forall prev,
          sync h prev
          = {| messages := messages prev
                           ++ [{| role := user; text := input render |}];
               input := [];
               isLoading := true |})
    /\ (forall b prev,
          truthy b = true ->
          (forall r, exists au,
             generateContent r = Ok {| Gemini.text := Some b;
                                       Gemini.audio := au |}) ->
          settle h prev
          = {| messages := messages prev ++ [{| role := model; text := b |}];
               input := input prev;
               isLoading := false |}).
Proof.
  intros Hin Hload. unfold handleSend. rewrite Hin, Hload. cbn [negb orb].
  unfold Gemini.chatWithStoryAssistant, Gemini.chatWithStoryAssistant_request.
  cbn [Gemini.chat_contents]. unfold Gemini.chat_contents.
  eexists. split; [reflexivity|]. split; [done|].
  intros b prev Hb Hgc. cbn [settle].
  match goal with
  | |- context [generateContent ?r] => destruct (Hgc r) as [au ->]
  end.
  cbn. destruct b as [|c b']; [discriminate|]. reflexivity.
Qed.

(** C8: the conversation starts with one model turn, the fixed greeting;
    a user turn "a", the model's answer "b" and a user turn "c" leave the
    transcript [seed, a, b, c], in that order. *)
Theorem conversation_order
    (generateContent : Gemini.Request -> result Gemini.Response)
    (props : Props) (σ σ' : gmap nat (list Gemini.Content))
    (a b c : jsstring) :
  truthy (trim a) = true -> truthy (trim c) = true -> truthy b = true ->
  (forall r, exists au,
     generateContent r = Ok {| Gemini.text := Some b; Gemini.audio := au |}) ->
  let seed := {| role := model; text := greeting |} in
  let transcript := [seed; {| role := user; text := a |};
                     {| role := model; text := b |};
                     {| role := user; text := c |}] in
  snapshot initial = [seed]
  /\ snapshot (appendUser c (appendModel b (appendUser a initial))) = transcript
  /\ exists h1 h3,
       handleSend generateContent props σ (setInput a initial) = Some h1
       /\ let s2 := settle h1 (sync h1 (setInput a initial)) in
          isLoading s2 = false
          /\ handleSend generateContent props σ' (setInput c s2) = Some h3
          /\ snapshot (sync h3 (setInput c s2)) = transcript.
Proof.
  intros Ha Hc Hb Hgc. cbn zeta. split; [done|]. split; [done|].
  destruct (handleSend_runs generateContent props σ (setInput a initial))
    as (h1 & H1 & Hsync1 & Hsettle1); [done..|].
  exists h1.
  rewrite Hsync1, (Hsettle1 b) by done. cbn [messages input isLoading initial setInput app].
  destruct (handleSend_runs generateContent props σ'
              (setInput c
                 {| messages := [{| role := model; text := greeting |};
                                 {| role := user; text := a |};
                                 {| role := model; text := b |}];
                    input := [];
                    isLoading := false |}))
    as (h3 & H3 & Hsync3 & _); [done..|].
  exists h3. split; [exact H1|]. split; [done|]. split; [exact H3|].
  by rewrite Hsync3.
Qed.

Lemma conversation_order_witness :
  let generateContent := fun _ : Gemini.Request =>
    Ok {| Gemini.text := Some (js "b"); Gemini.audio := None |} in
  let props := {| media := None; mimeType := None; storyContext := [] |} in
  let seed := {| role := model; text := greeting |} in
  let transcript := [seed; {| role := user; text := js "a" |};
                     {| role := model; text := js "b" |};
                     {| role := user; text := js "c" |}] in
  truthy (trim (js "a")) = true /\ truthy (trim (js "c")) = true
  /\ truthy (js "b") = true
  /\ snapshot initial = [seed]
  /\ snapshot (appendUser (js "c") (appendModel (js "b")
                                      (appendUser (js "a") initial)))
     = transcript
  /\ exists h1 h3,
       handleSend generateContent props ∅ (setInput (js "a") initial) = Some h1
       /\ let s2 := settle h1 (sync h1 (setInput (js "a") initial)) in
          isLoading s2 = false
          /\ handleSend generateContent props ∅ (setInput (js "c") s2) = Some h3
          /\ snapshot (sync h3 (setInput (js "c") s2)) = transcript.
Proof.
  cbn zeta. split; [reflexivity|]. split; [reflexivity|].
  split; [reflexivity|].
  apply (conversation_order
           (fun _ => Ok {| Gemini.text := Some (js "b"); Gemini.audio := None |})
           {| media := None; mimeType := None; storyContext := [] |}
           ∅ ∅ (js "a") (js "b") (js "c")); try reflexivity.
  intros r. by exists None.
Defined.

(** A blank input, or a call under way, makes [handleSend] do nothing. *)
Lemma handleSend_ignored
    (generateContent : Gemini.Request -> result Gemini.Response)
    (props : Props) (σ : gmap nat (list Gemini.Content)) (render : State) :
  truthy (trim (input render)) = false \/ isLoading render = true ->
  handleSend generateContent props σ render = None.
Proof.
  intros [H | H]; unfold handleSend; rewrite H; [done|].
  by destruct (truthy _).
Qed.

(** *** More on [handleSend] *)

Lemma handleSend_inv
    (generateContent : Gemini.Request -> result Gemini.Response)
    (props : Props) (σ : gmap nat (list Gemini.Content)) (render : State)
    (h : Async State) :
  handleSend generateContent props σ render = Some h ->
  blank (input render) = false /\ isLoading render = false
  /\ h = {| sync := fun prev =>
              {| messages := messages prev
                             ++ [{| role := user; text := input render |}];
                 input := [];
                 isLoading := true |};
            settle := fun prev =>
              let prev :=
                try_catch
                  (response ←
                     (response ← generateContent
                                   (handleSend_request props σ render);
                      Ok (Gemini.or_else
                            (Gemini.text response)
                            (js "I'm sorry, I couldn't process that.")));
                   Ok (append {| role := model; text := response |} prev))
                  (fun _ =>
                     append {| role := model;
                               text := js "Error connecting to the Story Assistant." |}
                            prev) in
              {| messages := messages prev;
                 input := input prev;
                 isLoading := false |} |}.
Proof.
  unfold handleSend, blank, handleSend_request, Gemini.chatWithStoryAssistant.
  destruct (negb (truthy (trim (input render)))); [discriminate|].
  destruct (isLoading render); [discriminate|]. cbn [orb].
  destruct (Gemini.chatWithStoryAssistant_request _ _ _ _ _)
    as [request σ'].
  by intros [= <-].
Qed.


(** X10: when a call settles, exactly one model message is appended to the
    transcript as it is then, never an empty one: the reply, the fallback
    for a reply without text, or the error message when the call failed;
    [isLoading] is cleared and the input box is left alone. *)
Theorem handleSend_settles
    (generateContent : Gemini.Request -> result Gemini.Response)
    (props : Props) (σ : gmap nat (list Gemini.Content)) (render : State)
    (h : Async State) (prev : State) :
  handleSend generateContent props σ render = Some h ->
  exists reply,
    settle h prev
    = {| messages := messages prev ++ [{| role := model; text := reply |}];
         input := input prev;
         isLoading := false |}
    /\ truthy reply = true
    /\ match generateContent (handleSend_request props σ render) with
       | Ok response =>
           reply = Gemini.or_else (Gemini.text response)
                                  (js "I'm sorry, I couldn't process that.")
       | Throw _ => reply = js "Error connecting to the Story Assistant."
       end.
Proof.
  intros Hh. apply handleSend_inv in Hh as (_ & _ & ->). cbn [settle].
  destruct (generateContent (handleSend_request props σ render))
    as [response|e]; cbn.
  - eexists. split; [reflexivity|]. split; [|reflexivity].
    by destruct (Gemini.text response) as [[|c r]|].
  - eexists. split; [reflexivity|]. by split.
Qed.

Lemma handleSend_settles_witness :
  let generateContent := fun _ : Gemini.Request =>
    @Throw Gemini.Response ServiceError in
  let props := {| media := None; mimeType := None; storyContext := [] |} in
  exists h,
    handleSend generateContent props ∅ (setInput (js "hello") initial) = Some h
    /\ messages (settle h (sync h initial))
       = [{| role := model; text := greeting |};
          {| role := user; text := js "hello" |};
          {| role := model;
             text := js "Error connecting to the Story Assistant." |}]
    /\ isLoading (settle h (sync h initial)) = false.
Proof.
  cbn zeta.
  destruct (handleSend (fun _ => Throw ServiceError)
              {| media := None; mimeType := None; storyContext := [] |}
              ∅ (setInput (js "hello") initial)) as [h|] eqn:Hh;
    [|discriminate Hh].
  exists h. split; [reflexivity|].
  destruct (handleSend_settles _ _ _ _ h (sync h initial) Hh)
    as (reply & -> & _ & ->).
  apply handleSend_inv in Hh as (_ & _ & ->).
  split; reflexivity.
Defined.

(** X11: while a call is under way, that is between the two parts of
    [handleSend], sending again does nothing, whatever is typed. *)
Theorem handleSend_once_at_a_time
    (generateContent : Gemini.Request -> result Gemini.Response)
    (props : Props) (σ σ' : gmap nat (list Gemini.Content))
    (render prev : State) (h : Async State) (typed : jsstring) :
  handleSend generateContent props σ render = Some h ->
  isLoading (sync h prev) = true
  /\ handleSend generateContent props σ' (setInput typed (sync h prev))
     = None.
Proof.
  intros Hh. apply handleSend_inv in Hh as (_ & _ & ->). cbn [sync].
  split; [done|]. unfold handleSend. cbn [setInput isLoading input].
  by rewrite orb_true_r.
Qed.

Lemma handleSend_once_at_a_time_witness :
  let generateContent := fun _ : Gemini.Request =>
    @Throw Gemini.Response ServiceError in
  let props := {| media := None; mimeType := None; storyContext := [] |} in
  exists h,
    handleSend generateContent props ∅ (setInput (js "hello") initial) = Some h
    /\ handleSend generateContent props ∅
                  (setInput (js "again") (sync h (setInput (js "hello") initial)))
       = None.
Proof.
  cbn zeta.
  destruct (handleSend (fun _ => Throw ServiceError)
              {| media := None; mimeType := None; storyContext := [] |}
              ∅ (setInput (js "hello") initial)) as [h|] eqn:Hh;
    [|discriminate Hh].
  exists h. split; [reflexivity|].
  by eapply handleSend_once_at_a_time.
Defined.

(** *** The transcript over a whole conversation *)

Lemma alternates_app (first : Role) (l l' : list Message) :
  alternates first (l ++ l')
  = alternates first l
    && alternates (if Nat.even (length l) then first else other first) l'.
Proof.
  revert first. induction l as [|m l IH]; intros first; [done|].
  cbn [app alternates length]. rewrite IH, Nat.even_succ, <- Nat.negb_even.
  rewrite andb_assoc. f_equal.
  destruct (Nat.even (length l)), first; reflexivity.
Qed.

Lemma exchange_cases
    (generateContent : Gemini.Request -> result Gemini.Response)
    (props : Props) (σ : gmap nat (list Gemini.Content))
    (typed : jsstring) (s : State) :
  isLoading s = false ->
  isLoading (exchange generateContent props σ typed s) = false
  /\ if blank typed
     then messages (exchange generateContent props σ typed s) = messages s
     else exists reply,
            messages (exchange generateContent props σ typed s)
            = messages s ++ [{| role := user; text := typed |};
                             {| role := model; text := reply |}].
Proof.
  intros Hload. unfold exchange. cbn zeta.
  destruct (handleSend generateContent props σ (setInput typed s))
    as [h|] eqn:Hh.
  - apply handleSend_inv in Hh as (Hb & _ & ->).
    cbn [setInput input] in Hb. rewrite Hb. cbn [sync settle].
    split; [done|].
    destruct (generateContent (handleSend_request props σ (setInput typed s)))
      as [response|e]; cbn; eexists; by rewrite <- app_assoc.
  - cbn [setInput isLoading messages]. split; [done|].
    unfold handleSend in Hh. cbn [setInput isLoading input] in Hh.
    rewrite Hload, orb_false_r in Hh. unfold blank.
    by destruct (negb (truthy (trim typed))).
Qed.

(** X12: however a conversation goes, with replies, replies without text and
    failed calls, and with blank inputs in between, the transcript starts
    with the greeting, the roles alternate from there, the last message is
    a model message, and each input that is not blank has added two
    messages. *)
Theorem conversation_alternates
    (generateContent : Gemini.Request -> result Gemini.Response)
    (props : Props) (σ : gmap nat (list Gemini.Content))
    (typed : list jsstring) :
  let s := converse generateContent props σ typed initial in
  isLoading s = false
  /\ head (messages s) = Some {| role := model; text := greeting |}
  /\ alternates model (messages s) = true
  /\ length (messages s)
     = S (2 * length (List.filter (fun t => negb (blank t)) typed))
  /\ (role <$> last (messages s)) = Some model.
Proof.
  cbn zeta.
  enough (forall s n,
            isLoading s = false ->
            head (messages s) = Some {| role := model; text := greeting |} ->
            alternates model (messages s) = true ->
            length (messages s) = S (2 * n) ->
            (role <$> last (messages s)) = Some model ->
            let s' := converse generateContent props σ typed s in
            isLoading s' = false
            /\ head (messages s')
               = Some {| role := model; text := greeting |}
            /\ alternates model (messages s') = true
            /\ length (messages s')
               = S (2 * (n + length (List.filter (fun t => negb (blank t))
                                                 typed)))
            /\ (role <$> last (messages s')) = Some model) as H.
  { apply (H initial 0%nat); reflexivity. }
  induction typed as [|t typed IH]; intros s n Hload Hhead Halt Hlen Hlast.
  - cbn. rewrite Nat.add_0_r. done.
  - cbn [converse fold_left List.filter].
    destruct (exchange_cases generateContent props σ t s Hload)
      as [Hload' Hmsgs].
    fold (converse generateContent props σ typed
                   (exchange generateContent props σ t s)).
    destruct (blank t) eqn:Hb; cbn [negb].
    + apply IH; by rewrite ?Hmsgs.
    + destruct Hmsgs as [reply Hmsgs].
      cbn [length]. rewrite <- Nat.add_succ_comm.
      apply IH; rewrite ?Hmsgs; try done.
      * destruct (messages s); [discriminate | done].
      * rewrite alternates_app, Halt, Hlen, Nat.even_succ.
        rewrite Nat.odd_mul, Nat.odd_2. cbn [andb]. reflexivity.
      * rewrite length_app. cbn. lia.
      * by rewrite last_app.
Qed.

Example conversation_with_failure :
  messages (converse (fun _ => Throw ServiceError)
                     {| media := None; mimeType := None; storyContext := [] |}
                     ∅ [js "hello"; js "   "; js "anyone?"] initial)
  = [{| role := model; text := greeting |};
     {| role := user; text := js "hello" |};
     {| role := model; text := js "Error connecting to the Story Assistant." |};
     {| role := user; text := js "anyone?" |};
     {| role := model; text := js "Error connecting to the Story Assistant." |}].
Proof. reflexivity. Qed.

End ChatBotFacts.

(** ** The story state and playback *)

Module AppFacts.
Import App.
Local Open Scope nat_scope.

(** *** handleAnalyze *)

(** C9: when the narrative call fails, [handleAnalyze] catches the failure:
    the rest of the handler returns a state, the one it found with the
    placeholder paragraph in place of the paragraph and [isAnalyzing]
    false, so that the analyze button is enabled again as long as there is
    an image.  The placeholder is the text "The ink has run dry... Please
    try again.", which is not empty. *)
Theorem handleAnalyze_failure
    (generateContent : Gemini.Request -> result Gemini.Response)
    (render prev : StoryState) (h : Async StoryState) (e : exn) :
  handleAnalyze generateContent render = Some h ->
  (forall img mime,
     image render = Some img -> mediaMimeType render = Some mime ->
     generateContent (Gemini.generateStoryFromMedia_request
                        img mime (language_name (language render)))
     = Throw e) ->
  settle h prev
  = {| image := image prev; mediaMimeType := mediaMimeType prev;
       paragraph := ink_has_run_dry; title := title prev;
       isAnalyzing := false; isReading := isReading prev;
       language := language prev; suggestions := suggestions prev;
       isGeneratingSuggestions := isGeneratingSuggestions prev |}
  /\ isAnalyzing (settle h prev) = false
  /\ paragraph (settle h prev) = ink_has_run_dry
  /\ analyze_disabled (settle h prev) = negb (present (image prev))
  /\ paragraph (settle h prev)
     = js "The ink has run dry... Please try again."
  /\ truthy (paragraph (settle h prev)) = true.
Proof.
  intros Hh Hfail. unfold handleAnalyze in Hh.
  destruct (image render) as [img|]; [|discriminate].
  destruct (mediaMimeType render) as [mime|]; [|discriminate].
  destruct (negb (truthy img) || negb (truthy mime)); [discriminate|].
  injection Hh as <-. cbn [settle].
  unfold Gemini.generateStoryFromMedia. rewrite (Hfail img mime) by done.
  cbn [mbind result_bind try_catch paragraph isAnalyzing].
  split; [reflexivity|]. split; [reflexivity|]. split; [reflexivity|].
  split; [unfold analyze_disabled; cbn; by rewrite orb_false_r|].
  split; reflexivity.
Qed.

Lemma handleAnalyze_failure_witness :
  let generateContent := fun _ : Gemini.Request =>
    @Throw Gemini.Response ServiceError in
  let render :=
    {| image := Some (js "data:image/png;base64,AAAA");
       mediaMimeType := Some (js "image/png");
       paragraph := []; title := []; isAnalyzing := false;
       isReading := false; language := English;
       suggestions := Json.JArray []; isGeneratingSuggestions := false |} in
  exists h,
    handleAnalyze generateContent render = Some h
    /\ isAnalyzing (sync h render) = true
    /\ isAnalyzing (settle h (sync h render)) = false
    /\ paragraph (settle h (sync h render)) = ink_has_run_dry
    /\ analyze_disabled (settle h (sync h render)) = false
    /\ paragraph (settle h (sync h render))
       = js "The ink has run dry... Please try again."
    /\ truthy (paragraph (settle h (sync h render))) = true.
Proof.
  cbn zeta. eexists. split; [reflexivity|]. split; [reflexivity|].
  match goal with
  | |- context [settle ?h ?prev] =>
      destruct (handleAnalyze_failure
                  (fun _ => Throw ServiceError)
                  {| image := Some (js "data:image/png;base64,AAAA");
                     mediaMimeType := Some (js "image/png");
                     paragraph := []; title := []; isAnalyzing := false;
                     isReading := false; language := English;
                     suggestions := Json.JArray [];
                     isGeneratingSuggestions := false |}
                  prev h ServiceError eq_refl (fun _ _ _ _ => eq_refl))
        as (_ & H1 & H2 & H3 & H4 & H5)
  end.
  split; [exact H1|]. split; [exact H2|]. split; [exact H3|].
  split; [exact H4 | exact H5].
Defined.

(** A paragraph that arrives is put in place, and the flag is cleared. *)
Lemma handleAnalyze_success
    (generateContent : Gemini.Request -> result Gemini.Response)
    (render prev : StoryState) (h : Async StoryState)
    (response : Gemini.Response) :
  handleAnalyze generateContent render = Some h ->
  (forall r, generateContent r = Ok response) ->
  paragraph (settle h prev)
  = Gemini.or_else (Gemini.text response) (js "Failed to generate story.")
  /\ isAnalyzing (settle h prev) = false.
Proof.
  intros Hh Hok. unfold handleAnalyze in Hh.
  destruct (image render) as [img|]; [|discriminate].
  destruct (mediaMimeType render) as [mime|]; [|discriminate].
  destruct (negb (truthy img) || negb (truthy mime)); [discriminate|].
  injection Hh as <-. cbn [settle].
  unfold Gemini.generateStoryFromMedia. rewrite Hok. by cbn.
Qed.

(** An image is uploaded and analysed, then suggestions are asked for and
    the service answers with malformed JSON: the paragraph is in place, the
    suggestions are empty, both flags are cleared. *)
Example upload_analyze_suggest :
  exists h1 h2,
    handleAnalyze scripted_service uploaded = Some h1
    /\ let s1 := settle h1 (sync h1 uploaded) in
       paragraph s1 = js "The lamp guttered."
       /\ isAnalyzing s1 = false
       /\ handleGetSuggestions scripted_service s1 = Some h2
       /\ let s2 := settle h2 (sync h2 s1) in
          suggestions s2 = Json.JArray []
          /\ isGeneratingSuggestions s2 = false
          /\ paragraph s2 = js "The lamp guttered.".
Proof. eexists _, _. repeat split. Qed.

(** *** Playback *)

Lemma finish_not_playing (s : Source) : state (finish s) <> Playing.
Proof. unfold finish. by destruct (state s) eqn:E; cbn; rewrite ?E. Qed.

Lemma finish_playing (s : Source) :
  state s = Playing ->
  finish s = {| buffer := buffer s; state := Finished; ended_queued := true |}.
Proof. intros H. unfold finish. by rewrite H. Qed.

(** After [stop()] on the current source nothing plays. *)
Lemma stop_current_silent (a : Audio) :
  exclusive a -> forall n, ~ is_playing (stop_current a) n.
Proof.
  intros Hex n (s & Hs & Hplay). unfold stop_current in Hs.
  destruct (audioSourceRef a) as [cur|] eqn:Hcur.
  - cbn in Hs. destruct (decide (n = cur)) as [->|Hne].
    + rewrite list_lookup_alter_eq in Hs.
      destruct (sources a !! cur) as [s0|]; [|discriminate].
      injection Hs as <-. by apply finish_not_playing in Hplay.
    + rewrite list_lookup_alter_ne in Hs by done.
      assert (audioSourceRef a = Some n) as H by (apply Hex; by exists s).
      congruence.
  - assert (audioSourceRef a = Some n) as H by (apply Hex; by exists s).
    congruence.
Qed.

Lemma stop_current_length (a : Audio) :
  length (sources (stop_current a)) = length (sources a).
Proof.
  unfold stop_current. destruct (audioSourceRef a); [|done].
  cbn. apply length_alter.
Qed.

(** After [play] exactly the new source plays, and it is the current
    one. *)
Lemma play_only_new (b : PCM.AudioBuffer) (a : Audio) :
  exclusive a ->
  forall n, is_playing (play b a) n <-> n = length (sources a).
Proof.
  intros Hex n. unfold play, start_source, is_playing. cbn [sources].
  rewrite <- (stop_current_length a). split.
  - intros (s & Hs & Hplay).
    apply lookup_app_Some in Hs as [Hs | [Hge Hs]].
    + exfalso. apply (stop_current_silent a Hex n). by exists s.
    + apply list_lookup_singleton_Some in Hs as [Hn _]. lia.
  - intros ->. eexists. split.
    + by rewrite lookup_app_r, Nat.sub_diag by lia.
    + reflexivity.
Qed.

Lemma play_exclusive (b : PCM.AudioBuffer) (a : Audio) :
  exclusive a -> exclusive (play b a).
Proof.
  intros Hex n Hn. apply (play_only_new b a Hex) in Hn as ->.
  unfold play, start_source. cbn. by rewrite stop_current_length.
Qed.

Lemma step_exclusive (e : event) (w w' : StoryState * Audio) :
  exclusive w.2 -> step e w = Some w' -> exclusive w'.2.
Proof.
  destruct w as [st a]. cbn [snd]. intros Hex Hstep.
  destruct e as [b | n | n]; cbn in Hstep.
  - injection Hstep as <-. by apply play_exclusive.
  - destruct (sources a !! n) as [[buf [|] q]|] eqn:Hn; try discriminate.
    injection Hstep as <-. cbn [snd]. intros m (s & Hs & Hplay).
    cbn in Hs |- *. destruct (decide (m = n)) as [->|Hne].
    + rewrite list_lookup_alter_eq, Hn in Hs. injection Hs as <-.
      by apply finish_not_playing in Hplay.
    + rewrite list_lookup_alter_ne in Hs by done.
      apply Hex. by exists s.
  - destruct (sources a !! n) as [s0|] eqn:Hn; [|discriminate].
    destruct (ended_queued s0); [|discriminate].
    injection Hstep as <-. cbn [snd]. intros m (s & Hs & Hplay).
    cbn in Hs |- *. destruct (decide (m = n)) as [->|Hne].
    + rewrite list_lookup_insert_eq in Hs
        by (by eapply lookup_lt_Some).
      injection Hs as <-. cbn in Hplay. apply Hex. by exists s0.
    + rewrite list_lookup_insert_ne in Hs by done.
      apply Hex. by exists s.
Qed.

Lemma run_exclusive (es : list event) (w w' : StoryState * Audio) :
  exclusive w.2 -> run es w = Some w' -> exclusive w'.2.
Proof.
  revert w. induction es as [|e es IH]; intros w Hex Hrun.
  - by injection Hrun as <-.
  - cbn in Hrun. destruct (step e w) as [w1|] eqn:E; [|discriminate].
    cbn in Hrun. eapply IH; [|exact Hrun]. by eapply step_exclusive.
Qed.

(** X21: no two sources ever play at once. *)
Lemma reachable_exclusive (w : StoryState * Audio) :
  reachable w -> exclusive w.2.
Proof.
  intros [es Hes]. eapply run_exclusive; [|exact Hes].
  intros n (s & Hs & _). cbn in Hs. by rewrite lookup_nil in Hs.
Qed.

(** The rest of [handleReadAloud], once narration has settled, plays the
    decoded buffer, or clears [isReading] when anything has failed. *)
Lemma handleReadAloud_settles
    (generateContent : Gemini.Request -> result Gemini.Response)
    (platform_context : PCM.AudioContext) (render prev : StoryState)
    (a : Audio) (h : Async (StoryState * Audio)) :
  handleReadAloud generateContent platform_context render = Some h ->
  (exists b, settle h (prev, a) = (prev, play b a))
  \/ settle h (prev, a) = (set_isReading false prev, a).
Proof.
  unfold handleReadAloud. intros Hh.
  destruct (negb (truthy (paragraph render)) || isReading render);
    [discriminate|].
  injection Hh as <-. cbn [settle].
  destruct (Gemini.narrateText generateContent _) as [bytes|e]; cbn;
    [|by right].
  destruct (PCM.decodeAudioData bytes _ _ _) as [b|e]; cbn;
    [left; by exists b | by right].
Qed.

(** Stopping a playing source queues its [ended] event. *)
Lemma play_queues_ended (b : PCM.AudioBuffer) (a : Audio) (n : nat)
    (s : Source) :
  exclusive a -> sources a !! n = Some s -> state s = Playing ->
  sources (play b a) !! n
  = Some {| buffer := buffer s; state := Finished; ended_queued := true |}.
Proof.
  intros Hex Hs Hplay.
  assert (audioSourceRef a = Some n) as Hcur by (apply Hex; by exists s).
  unfold play, start_source, stop_current. rewrite Hcur. cbn.
  rewrite lookup_app_l
    by (rewrite length_alter; by eapply lookup_lt_Some).
  by rewrite list_lookup_alter_eq, Hs, <- (finish_playing s Hplay).
Qed.

(** When source A plays and the handler plays B, A is stopped before B
    starts, so that nothing plays in between and only B plays afterwards,
    as the current source; B signals completion when it ends. *)
Lemma play_preempts (st : StoryState) (a : Audio) (bufB : PCM.AudioBuffer)
    (A : nat) (sA : Source) :
  exclusive a -> sources a !! A = Some sA -> state sA = Playing ->
  let B := length (sources a) in
  (forall n, ~ is_playing (stop_current a) n)
  /\ (forall n, is_playing (play bufB a) n <-> n = B)
  /\ audioSourceRef (play bufB a) = Some B
  /\ exclusive (play bufB a)
  /\ (exists w1 w2,
        ends_naturally B (st, play bufB a) = Some w1
        /\ deliver_ended B w1 = Some w2
        /\ isReading w2.1 = false /\ forall n, ~ is_playing w2.2 n).
Proof.
  intros Hex HA Hplay. cbn zeta.
  pose proof (play_only_new bufB a Hex) as Honly.
  pose proof (play_exclusive bufB a Hex) as Hex'.
  assert (A < length (sources a)) as HltA by (by eapply lookup_lt_Some).
  assert (sources (play bufB a) !! length (sources a)
          = Some {| buffer := bufB; state := Playing; ended_queued := false |})
    as HB.
  { unfold play, start_source. cbn [sources].
    rewrite lookup_app_r by (by rewrite stop_current_length).
    by rewrite stop_current_length, Nat.sub_diag. }
  split; [by apply stop_current_silent|]. split; [exact Honly|].
  split; [unfold play, start_source; cbn; by rewrite stop_current_length|].
  split; [exact Hex'|].
  eexists _, _. unfold ends_naturally. rewrite HB. cbn [state].
  split; [reflexivity|]. unfold deliver_ended. cbn [sources].
  rewrite list_lookup_alter_eq, HB. cbn.
  split; [reflexivity|]. split; [done|].
  intros n (s & Hs & Hs'). cbn [snd sources] in Hs.
  destruct (decide (n = length (sources a))) as [->|Hne].
  - rewrite list_lookup_insert_eq in Hs.
    + injection Hs as <-. discriminate.
    + rewrite length_alter, length_app, stop_current_length. cbn. lia.
  - rewrite list_lookup_insert_ne, list_lookup_alter_ne in Hs by done.
    apply Hne, Honly. by exists s.
Qed.

(** The defect at the level of the events: A is played, B is played before
    A ends, and then the [ended] event of A is delivered; [isReading] is
    cleared while B is the one source playing. *)
Example preempted_source_signals :
  exists w,
    run [Play silence; Play silence; DeliverEnded 0]
        (set_isReading true initial, no_audio) = Some w
    /\ isReading w.1 = false
    /\ playing w.2 = [1].
Proof. eexists. split; [reflexivity|]. split; reflexivity. Qed.


(** *** More on [handleAnalyze] *)

(** X13: whatever the service does, the rest of [handleAnalyze] changes the
    state of the moment in two fields only: it puts a paragraph in place,
    never an empty one, and clears [isAnalyzing]; until then the analyze
    button is disabled. *)
Theorem handleAnalyze_outcome
    (generateContent : Gemini.Request -> result Gemini.Response)
    (render : StoryState) (h : Async StoryState) :
  handleAnalyze generateContent render = Some h ->
  (forall prev, analyze_disabled (sync h prev) = true)
  /\ forall prev,
       exists story,
         settle h prev = analysed story prev /\ truthy story = true.
Proof.
  intros Hh. unfold handleAnalyze in Hh.
  destruct (image render) as [img|]; [|discriminate].
  destruct (mediaMimeType render) as [mime|]; [|discriminate].
  destruct (negb (truthy img) || negb (truthy mime)); [discriminate|].
  injection Hh as <-. cbn [sync settle]. split; intros prev.
  - unfold analyze_disabled. cbn. apply orb_true_r.
  - unfold Gemini.generateStoryFromMedia.
    destruct (generateContent _) as [response|e]; cbn.
    + eexists. split; [reflexivity|].
      by destruct (Gemini.text response) as [[|c r]|].
    + eexists. split; reflexivity.
Qed.

Lemma handleAnalyze_outcome_witness :
  exists h,
    handleAnalyze scripted_service uploaded = Some h
    /\ analyze_disabled (sync h uploaded) = true
    /\ exists story,
         settle h (sync h uploaded) = analysed story (sync h uploaded)
         /\ truthy story = true.
Proof.
  destruct (handleAnalyze scripted_service uploaded) as [h|] eqn:Hh;
    [|discriminate Hh].
  exists h. split; [reflexivity|].
  destruct (handleAnalyze_outcome scripted_service uploaded h Hh) as [H1 H2].
  split; [apply H1 | apply H2].
Defined.

(** X14: the paragraph that [handleAnalyze] puts in place is the one for the
    media of the render in which it was started: when other media is loaded
    while the call is under way, the state ends with the new media and the
    paragraph written for the old. *)
Theorem handleAnalyze_stale
    (generateContent : Gemini.Request -> result Gemini.Response)
    (render : StoryState) (h : Async StoryState)
    (result : option jsstring) (mime : jsstring) :
  handleAnalyze generateContent render = Some h ->
  let s := settle h (media_loaded result mime (sync h render)) in
  image s = result
  /\ mediaMimeType s = Some mime
  /\ paragraph s = paragraph (settle h (sync h render))
  /\ truthy (paragraph s) = true
  /\ isAnalyzing s = false.
Proof.
  intros Hh. cbn zeta. unfold handleAnalyze in Hh.
  destruct (image render) as [img|]; [|discriminate].
  destruct (mediaMimeType render) as [mime'|]; [|discriminate].
  destruct (negb (truthy img) || negb (truthy mime')); [discriminate|].
  injection Hh as <-. cbn [sync settle].
  unfold Gemini.generateStoryFromMedia.
  destruct (generateContent _) as [response|e]; cbn.
  - repeat split. by destruct (Gemini.text response) as [[|c r]|].
  - repeat split.
Qed.

Lemma handleAnalyze_stale_witness :
  exists h,
    handleAnalyze scripted_service uploaded = Some h
    /\ let s := settle h (media_loaded (Some (js "data:video/mp4;base64,AAAA"))
                                       (js "video/mp4") (sync h uploaded)) in
       image s = Some (js "data:video/mp4;base64,AAAA")
       /\ mediaMimeType s = Some (js "video/mp4")
       /\ paragraph s = paragraph (settle h (sync h uploaded))
       /\ truthy (paragraph s) = true
       /\ isAnalyzing s = false.
Proof.
  destruct (handleAnalyze scripted_service uploaded) as [h|] eqn:Hh;
    [|discriminate Hh].
  exists h. split; [reflexivity|].
  exact (handleAnalyze_stale scripted_service uploaded h
           (Some (js "data:video/mp4;base64,AAAA")) (js "video/mp4") Hh).
Defined.

(** *** handlePaste and handleMediaUpload *)

Lemma handlePaste_loop_cons (item : Item) (rest : list Item) :
  handlePaste_loop (item :: rest)
  = if is_media_type (item_type item)
    then match getAsFile item with
         | Some blob =>
             match read_result blob with
             | Some url => Some (media_loaded (Some url) (item_type item))
             | None => None
             end
         | None => handlePaste_loop rest
         end
    else handlePaste_loop rest.
Proof. reflexivity. Qed.

(** X15: [handlePaste] updates the state exactly when the first clipboard item
    that is of an image or video type and gives a file can be read: the
    state then takes the data URL of that file and the type of that item.
    Items before it are passed over; items after it are not looked at. *)
Theorem handlePaste_first_media (items : list Item)
    (f : StoryState -> StoryState) :
  handlePaste (Some items) = Some f
  <-> exists before item after blob url,
        items = before ++ item :: after
        /\ Forall (fun it => is_media_type (item_type it) = false
                             \/ getAsFile it = None) before
        /\ is_media_type (item_type item) = true
        /\ getAsFile item = Some blob
        /\ read_result blob = Some url
        /\ f = media_loaded (Some url) (item_type item).
Proof.
  cbn [handlePaste]. split.
  - induction items as [|it items IH]; [discriminate|].
    rewrite handlePaste_loop_cons.
    destruct (is_media_type (item_type it)) eqn:Hm.
    + destruct (getAsFile it) as [blob|] eqn:Hf.
      * destruct (read_result blob) as [url|] eqn:Hr; [|discriminate].
        intros [= <-]. exists [], it, items, blob, url.
        split; [done|]. split; [apply Forall_nil_2 | done].
      * intros H. apply IH in H
          as (before & item & after & blob & url & -> & Hb & H).
        exists (it :: before), item, after, blob, url.
        split; [done|]. split; [|exact H].
        apply Forall_cons_2; [by right | exact Hb].
    + intros H. apply IH in H
        as (before & item & after & blob & url & -> & Hb & H).
      exists (it :: before), item, after, blob, url.
      split; [done|]. split; [|exact H].
      apply Forall_cons_2; [by left | exact Hb].
  - intros (before & item & after & blob & url & -> & Hb & Hm & Hf & Hr & ->).
    induction Hb as [|it before Hit _ IH].
    + cbn [app]. by rewrite handlePaste_loop_cons, Hm, Hf, Hr.
    + cbn [app]. rewrite handlePaste_loop_cons.
      destruct Hit as [-> | Hnone]; [exact IH|].
      rewrite Hnone. by destruct (is_media_type (item_type it)).
Qed.

Lemma handlePaste_first_media_witness :
  handlePaste (Some clipboard)
  = Some (media_loaded (Some (js "data:image/jpeg;base64,/9j/"))
                       (js "image/jpeg")).
Proof.
  apply (proj2 (handlePaste_first_media clipboard _)).
  exists [{| item_type := js "text/plain"; getAsFile := None |};
          {| item_type := js "image/png"; getAsFile := None |}],
         {| item_type := js "image/jpeg";
            getAsFile := Some {| file_type := js "image/jpeg";
                                 read_result := Some (js "data:image/jpeg;base64,/9j/") |} |},
         [{| item_type := js "video/mp4";
             getAsFile := Some {| file_type := js "video/mp4";
                                  read_result := Some (js "data:video/mp4;base64,AAAA") |} |}],
         {| file_type := js "image/jpeg";
            read_result := Some (js "data:image/jpeg;base64,/9j/") |},
         (js "data:image/jpeg;base64,/9j/").
  split; [reflexivity|]. split.
  - apply Forall_cons_2; [by left|]. apply Forall_cons_2; [by right|].
    apply Forall_nil_2.
  - repeat split.
Defined.

Lemma media_route (items : option (list Item)) (files : list File)
    (f : StoryState -> StoryState) :
  handlePaste items = Some f \/ handleMediaUpload files = Some f ->
  exists result mime, f = media_loaded result mime.
Proof.
  intros [H | H].
  - destruct items as [items|]; [|discriminate]. cbn [handlePaste] in H.
    induction items as [|it items IH]; [discriminate|].
    rewrite handlePaste_loop_cons in H.
    destruct (is_media_type (item_type it)); [|by apply IH].
    destruct (getAsFile it) as [blob|]; [|by apply IH].
    destruct (read_result blob) as [url|]; [|discriminate].
    injection H as <-. by eexists _, _.
  - destruct files as [|file files]; [discriminate|].
    injection H as <-. by eexists _, _.
Qed.

(** X16: media that arrives by paste or by upload starts the story over: the
    paragraph, the title and the suggestions are cleared, the language and
    the three flags stay, and until a paragraph is there again suggestions,
    reading aloud and saving do nothing. *)
Theorem media_load_resets
    (generateContent : Gemini.Request -> result Gemini.Response)
    (platform_context : PCM.AudioContext)
    (toLowerCase : jsstring -> jsstring) (now : jsstring)
    (items : option (list Item)) (files : list File)
    (f : StoryState -> StoryState) (prev : StoryState) :
  handlePaste items = Some f \/ handleMediaUpload files = Some f ->
  paragraph (f prev) = [] /\ title (f prev) = []
  /\ suggestions (f prev) = Json.JArray []
  /\ language (f prev) = language prev
  /\ isAnalyzing (f prev) = isAnalyzing prev
  /\ isReading (f prev) = isReading prev
  /\ isGeneratingSuggestions (f prev) = isGeneratingSuggestions prev
  /\ handleGetSuggestions generateContent (f prev) = None
  /\ handleReadAloud generateContent platform_context (f prev) = None
  /\ handleSave toLowerCase now (f prev) = None.
Proof.
  intros H. apply media_route in H as (result & mime & ->).
  repeat split.
Qed.

Lemma media_load_resets_witness :
  let file := {| file_type := js "image/png"; read_result := None |} in
  exists f,
    handleMediaUpload [file] = Some f
    /\ image (f (setTitle (js "Dusk") uploaded)) = None
    /\ title (f (setTitle (js "Dusk") uploaded)) = []
    /\ handleSave (fun s => s) (js "2026-01-01T00:00:00.000Z")
                  (f (setTitle (js "Dusk") uploaded)) = None.
Proof.
  cbn zeta. eexists. split; [reflexivity|]. split; [reflexivity|].
  pose proof (media_load_resets
                scripted_service PCM.base_context (fun s => s)
                (js "2026-01-01T00:00:00.000Z") None
                [{| file_type := js "image/png"; read_result := None |}]
                _ (setTitle (js "Dusk") uploaded) (or_intror eq_refl))
    as (_ & H2 & _ & _ & _ & _ & _ & _ & _ & H10).
  split; [exact H2 | exact H10].
Defined.

(** *** handleGetSuggestions *)

(** X17: the rest of [handleGetSuggestions] changes two fields of the state of
    the moment: it clears [isGeneratingSuggestions], and it replaces the
    suggestions by what was parsed from the response, or keeps them when
    the call failed.  While the call is under way, asking again does
    nothing. *)
Theorem handleGetSuggestions_settles
    (generateContent : Gemini.Request -> result Gemini.Response)
    (render prev : StoryState) (h : Async StoryState) :
  handleGetSuggestions generateContent render = Some h ->
  handleGetSuggestions generateContent (sync h render) = None
  /\ exists found,
       settle h prev = suggested found prev
       /\ match generateContent
                  (Gemini.generateStorySuggestions_request
                     (image render) (mediaMimeType render) (paragraph render)
                     (language_name (language render))) with
          | Ok response => found = Gemini.parse_suggestions response
          | Throw _ => found = suggestions prev
          end.
Proof.
  unfold handleGetSuggestions. intros Hh.
  destruct (negb (truthy (paragraph render)) || isGeneratingSuggestions render);
    [discriminate|].
  injection Hh as <-. cbn [sync settle set_suggesting isGeneratingSuggestions].
  split; [by rewrite orb_true_r|].
  unfold Gemini.generateStorySuggestions.
  destruct (generateContent _) as [response|e]; cbn;
    eexists; split; reflexivity.
Qed.

Lemma handleGetSuggestions_settles_witness :
  let s1 := analysed (js "The lamp guttered.") uploaded in
  exists h,
    handleGetSuggestions (fun _ => Throw ServiceError) s1 = Some h
    /\ handleGetSuggestions (fun _ => Throw ServiceError) (sync h s1) = None
    /\ settle h (sync h s1) = s1.
Proof.
  cbn zeta.
  destruct (handleGetSuggestions (fun _ => Throw ServiceError)
              (analysed (js "The lamp guttered.") uploaded))
    as [h|] eqn:Hh; [|discriminate Hh].
  exists h. split; [reflexivity|].
  destruct (handleGetSuggestions_settles
              _ _ (sync h (analysed (js "The lamp guttered.") uploaded)) h Hh)
    as (Hnone & found & -> & ->).
  split; [exact Hnone|].
  unfold handleGetSuggestions in Hh. cbn in Hh. by injection Hh as <-.
Defined.

(** *** handleSave *)

Lemma dash_spaces_no_space (after_space : bool) (s : jsstring) :
  Forall (fun c => ChatBot.is_white_space c = false)
         (dash_spaces after_space s).
Proof.
  revert after_space. induction s as [|c r IH]; intros after_space;
    [apply Forall_nil_2|].
  cbn [dash_spaces]. destruct (ChatBot.is_white_space c) eqn:Hc.
  - destruct after_space; [apply IH|].
    apply Forall_cons_2; [reflexivity | apply IH].
  - apply Forall_cons_2; [exact Hc | apply IH].
Qed.

Lemma dash_colons_and_dots_clean (s : jsstring) :
  Forall (fun c => c <> 58 /\ c <> 46)%Z (dash_colons_and_dots s).
Proof.
  unfold dash_colons_and_dots. apply Forall_fmap, Forall_forall.
  intros c _. cbn.
  destruct (Z.eqb_spec c 58) as [->|H1]; cbn; [lia|].
  destruct (Z.eqb_spec c 46) as [->|H2]; cbn; lia.
Qed.

Lemma Forall_check {A} (f : A -> bool) (P : A -> Prop) (l : list A) :
  (forall x, f x = true -> P x) -> forallb f l = true -> Forall P l.
Proof.
  intros Hf H. apply Forall_forall. intros x Hx. apply Hf.
  rewrite forallb_forall in H. by apply H, list_elem_of_In.
Qed.

(** X18: [handleSave] offers a file only when there is a paragraph.  The file
    holds a heading, never empty, a blank line and the paragraph; its name
    ends in [.txt], and before that has no white space when the story has
    a title, and neither a colon nor a full stop when it has none. *)
Theorem handleSave_download (toLowerCase : jsstring -> jsstring)
    (now : jsstring) (state : StoryState) (d : Download) :
  handleSave toLowerCase now state = Some d ->
  truthy (paragraph state) = true
  /\ (exists heading,
        truthy heading = true
        /\ content d = heading ++ Gemini.nl ++ Gemini.nl ++ paragraph state)
  /\ exists stem,
       download d = stem ++ js ".txt"
       /\ if truthy (title state)
          then Forall (fun c => ChatBot.is_white_space c = false) stem
          else Forall (fun c => c <> 58 /\ c <> 46)%Z stem.
Proof.
  unfold handleSave. destruct (truthy (paragraph state)); [|discriminate].
  cbn [negb]. intros [= <-]. cbn [download content].
  split; [reflexivity|]. split.
  - eexists. split; [|reflexivity].
    by destruct (truthy (title state)) eqn:Ht.
  - destruct (truthy (title state)).
    + exists (dash_spaces false (toLowerCase (title state))
              ++ js "-" ++ language_name (language state)).
      split; [by rewrite <- !app_assoc|].
      apply Forall_app. split; [apply dash_spaces_no_space|].
      apply (Forall_check (fun c => negb (ChatBot.is_white_space c)));
        [intros c Hc; by destruct (ChatBot.is_white_space c)|].
      by destruct (language state).
    + exists (js "story-ai-" ++ language_name (language state) ++ js "-"
              ++ dash_colons_and_dots now).
      split; [by rewrite <- !app_assoc|].
      assert (forall l, forallb (fun c => negb ((c =? 58) || (c =? 46))%Z) l
                        = true ->
                        Forall (fun c => c <> 58 /\ c <> 46)%Z l) as Hchk.
      { intros l. apply Forall_check. intros c Hc.
        destruct (Z.eqb_spec c 58), (Z.eqb_spec c 46); cbn in Hc;
          try discriminate. done. }
      apply Forall_app. split; [by apply Hchk|].
      apply Forall_app. split; [apply Hchk; by destruct (language state)|].
      apply Forall_app. split; [by apply Hchk|].
      apply dash_colons_and_dots_clean.
Qed.

Lemma handleSave_download_witness :
  let state := setTitle (js "the  lamp at dusk")
                        (analysed (js "The lamp guttered.") uploaded) in
  exists d,
    handleSave (fun s => s) (js "2026-01-01T00:00:00.000Z") state = Some d
    /\ download d = js "the-lamp-at-dusk-English.txt"
    /\ exists stem,
         download d = stem ++ js ".txt"
         /\ Forall (fun c => ChatBot.is_white_space c = false) stem.
Proof.
  cbn zeta. eexists. split; [reflexivity|]. split; [reflexivity|].
  destruct (handleSave_download
              (fun s => s) (js "2026-01-01T00:00:00.000Z")
              (setTitle (js "the  lamp at dusk")
                        (analysed (js "The lamp guttered.") uploaded))
              _ eq_refl) as (_ & _ & stem & Hstem & Hclean).
  exists stem. split; [exact Hstem | exact Hclean].
Defined.

(** *** More on [handleReadAloud] *)

(** X19: when the service answers the narration request with the base64 text of
    an even number of bytes that the audio context takes as one channel at
    24000 Hz, the rest of [handleReadAloud] stops the current source and
    plays those bytes as 16-bit samples; the state is left as it is, with
    [isReading] set by the first part. *)
Theorem handleReadAloud_plays
    (generateContent : Gemini.Request -> result Gemini.Response)
    (platform_context : PCM.AudioContext) (render prev : StoryState)
    (a : Audio) (h : Async (StoryState * Audio))
    (bytes : Codec.Uint8Array) (base64 : jsstring) (t : option jsstring) :
  handleReadAloud generateContent platform_context render = Some h ->
  Codec.encode bytes = Ok base64 ->
  generateContent (Gemini.narrateText_request (text_to_read render))
  = Ok {| Gemini.text := t; Gemini.audio := Some base64 |} ->
  Nat.even (length bytes) = true ->
  PCM.accepts (default platform_context (audioContextRef a)) 1
              (PCM.total_samples bytes) 24000%Q ->
  isReading (sync h (prev, a)).1 = true
  /\ settle h (prev, a)
     = (prev, play (PCM.deinterleaved bytes 24000%Q 1 (PCM.total_samples bytes))
                   a).
Proof.
  unfold handleReadAloud. intros Hh Henc Hgc Heven Hacc.
  destruct (negb (truthy (paragraph render)) || isReading render);
    [discriminate|].
  injection Hh as <-. cbn [sync settle]. split; [reflexivity|].
  match goal with
  | |- context [Gemini.narrateText _ ?x] =>
      change x with (text_to_read render)
  end.
  unfold Gemini.narrateText. rewrite Hgc.
  cbn [mbind result_bind Gemini.audio].
  destruct bytes as [|b bytes].
  { exfalso. destruct Hacc as (_ & _ & _ & H & _). cbn in H. lia. }
  destruct (CodecFacts.encode_nonempty b bytes) as (c & r & E).
  rewrite E in Henc. injection Henc as <-.
  rewrite (CodecFacts.decode_of_encode _ _ E). cbn [mbind result_bind].
  rewrite <- (Nat.div_1_r (PCM.total_samples (b :: bytes))) in Hacc |- *.
  rewrite (PCMFacts.decodeAudioData_ok _ _ _ _ Heven Hacc).
  reflexivity.
Qed.

Lemma handleReadAloud_plays_witness :
  let generateContent := fun _ : Gemini.Request =>
    Ok {| Gemini.text := None; Gemini.audio := Some (js "AAD/fw==") |} in
  let render := analysed (js "The lamp guttered.") uploaded in
  exists h,
    handleReadAloud generateContent PCM.base_context render = Some h
    /\ settle h (sync h (render, no_audio))
       = (set_isReading true render,
          play (PCM.deinterleaved [x00; x00; xff; x7f] 24000%Q 1 2)
               {| audioContextRef := Some PCM.base_context;
                  audioSourceRef := None; sources := [] |}).
Proof.
  cbn zeta.
  destruct (handleReadAloud
              (fun _ => Ok {| Gemini.text := None;
                              Gemini.audio := Some (js "AAD/fw==") |})
              PCM.base_context (analysed (js "The lamp guttered.") uploaded))
    as [h|] eqn:Hh; [|discriminate Hh].
  exists h. split; [reflexivity|].
  assert (sync h (analysed (js "The lamp guttered.") uploaded, no_audio)
          = (set_isReading true (analysed (js "The lamp guttered.") uploaded),
             {| audioContextRef := Some PCM.base_context;
                audioSourceRef := None; sources := [] |})) as ->.
  { unfold handleReadAloud in Hh. cbn in Hh. by injection Hh as <-. }
  refine (proj2 (handleReadAloud_plays
                   _ _ _ _ _ h [x00; x00; xff; x7f] (js "AAD/fw==") None
                   Hh eq_refl eq_refl eq_refl _)).
  unfold PCM.accepts. cbn. repeat split; (lia || discriminate).
Defined.

(** X20: when the narration call fails, or its response has no audio, or the
    audio is the text of an odd number of bytes, the rest of
    [handleReadAloud] clears [isReading] and leaves the audio as it is:
    nothing is stopped and nothing is played. *)
Theorem handleReadAloud_fails_quietly
    (generateContent : Gemini.Request -> result Gemini.Response)
    (platform_context : PCM.AudioContext) (render prev : StoryState)
    (a : Audio) (h : Async (StoryState * Audio)) :
  handleReadAloud generateContent platform_context render = Some h ->
  (exists e,
     generateContent (Gemini.narrateText_request (text_to_read render))
     = Throw e)
  \/ (exists t,
        generateContent (Gemini.narrateText_request (text_to_read render))
        = Ok {| Gemini.text := t; Gemini.audio := None |})
  \/ (exists t bytes base64,
        generateContent (Gemini.narrateText_request (text_to_read render))
        = Ok {| Gemini.text := t; Gemini.audio := Some base64 |}
        /\ Codec.encode bytes = Ok base64
        /\ Nat.even (length bytes) = false) ->
  settle h (prev, a) = (set_isReading false prev, a).
Proof.
  unfold handleReadAloud. intros Hh Hcase.
  destruct (negb (truthy (paragraph render)) || isReading render);
    [discriminate|].
  injection Hh as <-. cbn [settle].
  match goal with
  | |- context [Gemini.narrateText _ ?x] =>
      change x with (text_to_read render)
  end.
  unfold Gemini.narrateText.
  destruct Hcase as [[e Hgc] | [[t Hgc] | (t & bytes & base64 & Hgc & Henc & Hodd)]];
    rewrite Hgc; cbn [mbind result_bind Gemini.audio try_catch];
    [reflexivity | reflexivity |].
  destruct bytes as [|b bytes]; [discriminate|].
  destruct (CodecFacts.encode_nonempty b bytes) as (c & r & E).
  rewrite E in Henc. injection Henc as <-.
  rewrite (CodecFacts.decode_of_encode _ _ E). cbn [mbind result_bind].
  by rewrite (PCMFacts.odd_length_throws _ _ _ _ Hodd).
Qed.

Lemma handleReadAloud_fails_quietly_witness :
  let generateContent := fun _ : Gemini.Request =>
    Ok {| Gemini.text := None; Gemini.audio := Some (js "AAD/") |} in
  let render := analysed (js "The lamp guttered.") uploaded in
  let a := play silence no_audio in
  exists h,
    handleReadAloud generateContent PCM.base_context render = Some h
    /\ settle h (set_isReading true render, a) = (render, a).
Proof.
  cbn zeta.
  destruct (handleReadAloud
              (fun _ => Ok {| Gemini.text := None;
                              Gemini.audio := Some (js "AAD/") |})
              PCM.base_context (analysed (js "The lamp guttered.") uploaded))
    as [h|] eqn:Hh; [|discriminate Hh].
  exists h. split; [reflexivity|].
  change (settle h (set_isReading true
                      (analysed (js "The lamp guttered.") uploaded),
                    play silence no_audio)
          = (set_isReading false
               (set_isReading true
                  (analysed (js "The lamp guttered.") uploaded)),
             play silence no_audio)).
  apply (handleReadAloud_fails_quietly _ _ _ _ _ h Hh).
  right. right. exists None, [x00; x00; xff], (js "AAD/").
  repeat split.
Defined.

(** *** The [ended] events *)

Lemma reachable_exclusive_witness :
  let w := (initial, play silence (play silence no_audio)) in
  reachable w /\ exclusive w.2 /\ playing w.2 = [1].
Proof.
  cbn zeta.
  assert (reachable (initial, play silence (play silence no_audio))) as Hr.
  { by exists [Play silence; Play silence]. }
  split; [exact Hr|]. split; [exact (reachable_exclusive _ Hr) | reflexivity].
Defined.

Lemma finish_queued (s : Source) :
  (ended_queued s = true -> state s = Finished) ->
  ended_queued (finish s) = true -> state (finish s) = Finished.
Proof. unfold finish. destruct (state s) eqn:E; cbn; [done|]. by rewrite E. Qed.

Lemma step_queued_finished (e : event) (w w' : StoryState * Audio) :
  queued_finished w.2 -> step e w = Some w' -> queued_finished w'.2.
Proof.
  destruct w as [st a]. cbn [snd]. intros Hq Hstep.
  destruct e as [b | n | n]; cbn in Hstep.
  - injection Hstep as <-. cbn [snd]. intros m s Hs Hs'.
    unfold play, start_source in Hs. cbn [sources] in Hs.
    apply lookup_app_Some in Hs as [Hs | [_ Hs]].
    + unfold stop_current in Hs.
      destruct (audioSourceRef a) as [cur|]; [|by eapply Hq].
      cbn [sources] in Hs. destruct (decide (m = cur)) as [->|Hne].
      * rewrite list_lookup_alter_eq in Hs.
        destruct (sources a !! cur) as [s0|] eqn:H0; [|discriminate].
        injection Hs as <-. apply finish_queued; [|exact Hs'].
        by apply (Hq cur).
      * rewrite list_lookup_alter_ne in Hs by done. by eapply Hq.
    + apply list_lookup_singleton_Some in Hs as [_ <-]. discriminate.
  - destruct (sources a !! n) as [[buf [|] q]|] eqn:Hn; try discriminate.
    injection Hstep as <-. intros m s Hs Hs'. cbn [snd sources] in Hs.
    destruct (decide (m = n)) as [->|Hne].
    + rewrite list_lookup_alter_eq, Hn in Hs. by injection Hs as <-.
    + rewrite list_lookup_alter_ne in Hs by done. by eapply Hq.
  - destruct (sources a !! n) as [s0|] eqn:Hn; [|discriminate].
    destruct (ended_queued s0); [|discriminate].
    injection Hstep as <-. intros m s Hs Hs'. cbn [snd sources] in Hs.
    destruct (decide (m = n)) as [->|Hne].
    + rewrite list_lookup_insert_eq in Hs by (by eapply lookup_lt_Some).
      injection Hs as <-. discriminate.
    + rewrite list_lookup_insert_ne in Hs by done. by eapply Hq.
Qed.

Lemma reachable_queued_finished (w : StoryState * Audio) :
  reachable w -> queued_finished w.2.
Proof.
  intros [es Hes].
  assert (queued_finished (initial, no_audio).2) as H0.
  { intros n s Hs. cbn in Hs. by rewrite lookup_nil in Hs. }
  revert Hes H0. generalize (initial, no_audio).
  induction es as [|e es IH]; intros w0 Hrun H0.
  - by injection Hrun as <-.
  - cbn in Hrun. destruct (step e w0) as [w1|] eqn:E; [|discriminate].
    cbn in Hrun. eapply IH; [exact Hrun|]. by eapply step_queued_finished.
Qed.

Lemma step_signalled (e : event) (w w' : StoryState * Audio) (n : nat) :
  signalled w.2 n -> step e w = Some w' -> signalled w'.2 n.
Proof.
  destruct w as [st a]. cbn [snd]. intros (s & Hs & Hfin & Hq) Hstep.
  assert (finish s = s) as Hfs by (unfold finish; by rewrite Hfin).
  destruct e as [b | m | m]; cbn in Hstep.
  - injection Hstep as <-. exists s. split; [|done].
    unfold play, start_source. cbn [snd sources].
    assert (sources (stop_current a) !! n = Some s) as Hs1.
    { unfold stop_current. destruct (audioSourceRef a) as [cur|]; [|done].
      cbn [sources]. destruct (decide (n = cur)) as [->|Hne].
      - by rewrite list_lookup_alter_eq, Hs; cbn; rewrite Hfs.
      - by rewrite list_lookup_alter_ne. }
    by rewrite lookup_app_l by (by eapply lookup_lt_Some).
  - destruct (sources a !! m) as [[buf [|] q]|] eqn:Hm; try discriminate.
    injection Hstep as <-. exists s. split; [|done]. cbn [snd sources].
    destruct (decide (n = m)) as [->|Hne].
    + rewrite Hm in Hs. injection Hs as <-. discriminate.
    + by rewrite list_lookup_alter_ne.
  - destruct (sources a !! m) as [s0|] eqn:Hm; [|discriminate].
    destruct (ended_queued s0) eqn:Hq0; [|discriminate].
    injection Hstep as <-. exists s. split; [|done]. cbn [snd sources].
    destruct (decide (n = m)) as [->|Hne].
    + rewrite Hm in Hs. injection Hs as <-. congruence.
    + by rewrite list_lookup_insert_ne.
Qed.

Lemma run_signalled (es : list event) (w w' : StoryState * Audio) (n : nat) :
  signalled w.2 n -> run es w = Some w' -> signalled w'.2 n.
Proof.
  revert w. induction es as [|e es IH]; intros w Hs Hrun.
  - by injection Hrun as <-.
  - cbn in Hrun. destruct (step e w) as [w1|] eqn:E; [|discriminate].
    cbn in Hrun. eapply IH; [|exact Hrun]. by eapply step_signalled.
Qed.

(** X22: the [ended] event of a source is delivered only once the source has
    stopped playing, and at most once: after it, whatever is played and
    whatever ends, that source never plays again and no second event
    comes for it. *)
Theorem ended_delivered_once (w w1 w2 : StoryState * Audio) (n : nat)
    (es : list event) :
  reachable w ->
  deliver_ended n w = Some w1 ->
  run es w1 = Some w2 ->
  ~ is_playing w.2 n
  /\ ~ is_playing w2.2 n
  /\ deliver_ended n w2 = None.
Proof.
  intros Hreach Hdel Hrun.
  pose proof (reachable_queued_finished w Hreach) as Hq.
  destruct w as [st a]. cbn [snd] in *. cbn in Hdel.
  destruct (sources a !! n) as [s|] eqn:Hs; [|discriminate].
  destruct (ended_queued s) eqn:Hqs; [|discriminate].
  pose proof (Hq n s Hs Hqs) as Hfin.
  assert (signalled w1.2 n) as Hsig.
  { injection Hdel as <-. cbn [snd sources]. eexists. split.
    - apply list_lookup_insert_eq. by eapply lookup_lt_Some.
    - by cbn. }
  apply (run_signalled es w1 w2 n Hsig) in Hrun as (s2 & Hs2 & Hfin2 & Hq2).
  split; [|split].
  - intros (s' & Hs' & Hplay). congruence.
  - intros (s' & Hs' & Hplay). congruence.
  - destruct w2 as [st2 a2]. cbn [snd] in Hs2. cbn.
    by rewrite Hs2, Hq2.
Qed.

Lemma ended_delivered_once_witness :
  let w := (initial, play silence (play silence no_audio)) in
  let es := [EndsNaturally 1; DeliverEnded 1; Play silence] in
  exists w1 w2,
    deliver_ended 0 w = Some w1
    /\ run es w1 = Some w2
    /\ ~ is_playing w2.2 0
    /\ deliver_ended 0 w2 = None.
Proof.
  cbn zeta. eexists _, _. split; [reflexivity|]. split; [reflexivity|].
  refine (proj2 (ended_delivered_once
                   (initial, play silence (play silence no_audio))
                   _ _ 0 [EndsNaturally 1; DeliverEnded 1; Play silence]
                   _ eq_refl eq_refl)).
  by exists [Play silence; Play silence].
Defined.


End AppFacts.
